(** * Novice league leaderboard ([Dash.py]): division assignment,
    appearance cap, score aggregation and ranking.

    The development embeds [assign_division] and [process_novice] of
    [Dash.py] over lists of rows (a pandas frame is the list of its rows, in
    frame order) and proves the properties of the leaderboard pipeline.

    Modelling conventions.
    - A Python [str] is the list of its Unicode code points.
    - [Age] is a rational number or absent (pandas [NaN]); [Dots] and [Date]
      are integers or absent: a score in a fixed unit and a timestamp
      ([datetime64] is a 64-bit count).
    - The sum of a group is computed by pandas, in 64-bit integers or in
      floating point according to the column: it is a parameter of the
      pipeline ([group_sum]), of which nothing is assumed; [int64_sum] is
      the sum of an integer column.
    - pandas sorts with numpy's quicksort, which is not stable: the order in
      which it leaves rows of equal key is not fixed by the program.  The
      sort is a parameter of the pipeline as well ([sorter]), known only to
      return a sorted permutation; [numpy_sorter] follows numpy's routine,
      [stable_sorter] and [reversing_sorter] are two other sorts. *)

From Stdlib Require Import List Bool Arith ZArith NArith QArith Lia.
From Stdlib Require Import Permutation Sorted.
From Stdlib Require Ascii String.
Import String.StringSyntax.
Bind Scope string_scope with String.string.
Import ListNotations.
Close Scope Q_scope.

(* ================================================================= *)
(** ** Python strings *)

Module PyStr.

(** A string is the list of its code points. *)
Definition str := list N.

Definition codepoints (s : String.string) : str :=
  map Ascii.N_of_ascii (String.list_ascii_of_string s).

(** [str.isspace] on one character: the code points Python treats as
    white space. *)
Definition isspace (c : N) : bool :=
  ((9 <=? c) && (c <=? 13) || (28 <=? c) && (c <=? 32)
   || (c =? 133) || (c =? 160) || (c =? 5760)
   || (8192 <=? c) && (c <=? 8202)
   || (c =? 8232) || (c =? 8233) || (c =? 8239) || (c =? 8287)
   || (c =? 12288))%N.

Fixpoint lstrip (s : str) : str :=
  match s with
  | c :: rest => if isspace c then lstrip rest else s
  | [] => []
  end.

Definition rstrip (s : str) : str := rev (lstrip (rev s)).

(** [s.strip()] *)
Definition strip (s : str) : str := rstrip (lstrip s).

(** Upper-casing of one character.  Only the letters [a]..[z] are mapped:
    the one use of [upper] in the program is followed by
    [startswith("M")], and no character other than [m] has an upper-case
    form that begins with [M]. *)
Definition toupper (c : N) : N :=
  if ((97 <=? c) && (c <=? 122))%N then (c - 32)%N else c.

(** [s.upper()] *)
Definition upper (s : str) : str := map toupper s.

(** [s.startswith(p)] *)
Fixpoint startswith (s p : str) {struct p} : bool :=
  match p, s with
  | [], _ => true
  | _ :: _, [] => false
  | a :: p', b :: s' => (a =? b)%N && startswith s' p'
  end.

Definition str_eqb (a b : str) : bool :=
  if list_eq_dec N.eq_dec a b then true else false.

(** The first character of [s] is [m] or [M]. *)
Definition leading_m (s : str) : bool :=
  match s with
  | c :: _ => ((c =? 109) || (c =? 77))%N
  | [] => false
  end.

(** Comparison of two strings as Python's [<] on [str]: lexicographic on
    code points. *)
Fixpoint str_compare (a b : str) : comparison :=
  match a, b with
  | [], [] => Eq
  | [], _ :: _ => Lt
  | _ :: _, [] => Gt
  | x :: a', y :: b' =>
      match (x ?= y)%N with
      | Eq => str_compare a' b'
      | c => c
      end
  end.

End PyStr.
Import PyStr.

(* ================================================================= *)
(** ** Rows of the frame and division assignment *)

(** One row of the frame returned by [load_data]: [Name] is present (rows
    without a name are filtered out there); [Sex], [Age], [Dots] and [Date]
    may be missing ([NaN], [NaT]). *)
Record record := mkRecord {
  Name : str;
  Sex : option str;
  Age : option Q;
  Dots : option Z;
  Date : option Z
}.

Definition Junior : str := codepoints "Junior".
Definition Open : str := codepoints "Open".
Definition Masters : str := codepoints "Masters".
Definition Men : str := codepoints "Men".
Definition Women : str := codepoints "Women".
Definition space : str := codepoints " ".

(** [a < b] on rationals, as a boolean. *)
Definition Qltb (a b : Q) : bool := negb (Qle_bool b a).

(** [str(row["Sex"])]: a missing value prints as [nan]. *)
Definition sex_text (s : option str) : str :=
  match s with
  | Some x => x
  | None => codepoints "nan"
  end.

(** [assign_division(row)] *)
Definition assign_division (row : record) : option str :=
  match Age row with
  | None => None
  | Some age =>
      let div :=
        if Qltb age 24 then Junior
        else if Qltb age 40 then Open
        else Masters in
      let gender :=
        if startswith (upper (strip (sex_text (Sex row)))) (codepoints "M")
        then Men else Women in
      Some (div ++ space ++ gender)
  end.

(** A row of the frame once the [Division] column is added. *)
Record crow := mkCrow {
  row_of : record;
  Division : option str
}.

(** [df["Division"] = df.apply(assign_division, axis=1)] *)
Definition with_division (df : list record) : list crow :=
  map (fun r => mkCrow r (assign_division r)) df.

(* ================================================================= *)
(** ** Sorting *)

(** The sort used by [sort_values]: some function that returns its input
    rearranged in ascending order of the key.  Nothing else is known of
    numpy's default sort, in particular not the order it gives to rows of
    equal key. *)
Record sorter := mkSorter {
  sort_by : forall A : Type, (A -> Z) -> list A -> list A;
  sort_by_perm : forall A (key : A -> Z) l, Permutation (sort_by A key l) l;
  sort_by_sorted : forall A (key : A -> Z) l,
    StronglySorted (fun x y => key x <= key y)%Z (sort_by A key l)
}.

(** Insertion of [x] into a list sorted by [key]; [front] says whether [x]
    goes in front of the elements of equal key or behind them. *)
Fixpoint insert_by {A : Type} (front : bool) (key : A -> Z) (x : A)
    (l : list A) : list A :=
  match l with
  | [] => [x]
  | y :: t =>
      if (if front then key x <=? key y else key x <? key y)%Z
      then x :: l
      else y :: insert_by front key x t
  end.

(** Insertion sort.  With [front = true] it is stable; with [front = false]
    it reverses every run of equal keys. *)
Definition insertion_sort (front : bool) (A : Type) (key : A -> Z)
    (l : list A) : list A :=
  fold_right (insert_by front key) [] l.

(** *** The default sort of numpy

    [sort_values] sorts with [argsort(kind="quicksort")].  The module below
    follows numpy's scalar routine ([aquicksort_] and [aheapsort_] of
    [npysort]): a quicksort on an array of positions, with the median of
    three as pivot, an insertion sort for the runs of at most 17 cells and
    a heap sort when the depth limit is passed.  Pointers into the array
    are positions, loops are functions with fuel.  (A build of numpy that
    hands the sort to vector kernels may leave equal keys in another
    order.) *)

Module NumpySort.

(** The index array [tosort] as a list; [get] and [set] read and write one
    cell. *)
Definition get (t : list nat) (p : nat) : nat := nth p t 0.

Fixpoint set (t : list nat) (p x : nat) : list nat :=
  match t, p with
  | [], _ => []
  | _ :: r, 0 => x :: r
  | a :: r, S p' => a :: set r p' x
  end.

(** [INTP_SWAP] of the cells [p] and [q] *)
Definition swap (t : list nat) (p q : nat) : list nat :=
  set (set t p (get t q)) q (get t p).

(** [v[*p]] *)
Definition val (v : list Z) (t : list nat) (p : nat) : Z :=
  nth (get t p) v 0%Z.

(** Swap the cells [a] and [b] if [v[*a] < v[*b]]. *)
Definition order2 (v : list Z) (t : list nat) (a b : nat) : list nat :=
  if (val v t a <? val v t b)%Z then swap t a b else t.

(** [while (v[*pi] < vp) ++pi] *)
Fixpoint scan_up (fuel : nat) (v : list Z) (t : list nat) (vp : Z)
    (pi : nat) : nat :=
  match fuel with
  | 0 => pi
  | S f => if (val v t pi <? vp)%Z then scan_up f v t vp (pi + 1) else pi
  end.

(** [while (vp < v[*pj]) --pj] *)
Fixpoint scan_down (fuel : nat) (v : list Z) (t : list nat) (vp : Z)
    (pj : nat) : nat :=
  match fuel with
  | 0 => pj
  | S f => if (vp <? val v t pj)%Z then scan_down f v t vp (pj - 1) else pj
  end.

(** The loop [for (;;)] of the partition: both pointers move at least one
    cell, then the cells are swapped unless the pointers have met. *)
Fixpoint hoare (fuel : nat) (v : list Z) (vp : Z) (t : list nat)
    (pi pj : nat) : list nat * nat :=
  match fuel with
  | 0 => (t, pi)
  | S f =>
      let pi' := scan_up (length t) v t vp (pi + 1) in
      let pj' := scan_down (length t) v t vp (pj - 1) in
      if pj' <=? pi' then (t, pi')
      else hoare f v vp (swap t pi' pj') pi' pj'
  end.

(** One partition of the cells [pl..pr] around the median of three; the
    result is the array and the final place of the pivot. *)
Definition partition (v : list Z) (t : list nat) (pl pr : nat)
    : list nat * nat :=
  let pm := pl + Nat.div2 (pr - pl) in
  let t := order2 v t pm pl in
  let t := order2 v t pr pm in
  let t := order2 v t pm pl in
  let vp := val v t pm in
  let t := swap t pm (pr - 1) in
  let '(t, pi) := hoare (length t) v vp t pl (pr - 1) in
  (swap t pi (pr - 1), pi).

(** The loop [while (pj > pl && vp < v[*pk])] that moves the cells up. *)
Fixpoint shift (fuel : nat) (v : list Z) (t : list nat) (pl : nat) (vp : Z)
    (pj : nat) : list nat * nat :=
  match fuel with
  | 0 => (t, pj)
  | S f =>
      if (pl <? pj) && (vp <? val v t (pj - 1))%Z
      then shift f v (set t pj (get t (pj - 1))) pl vp (pj - 1)
      else (t, pj)
  end.

(** The insertion sort of the cells [pl..pr]. *)
Definition insertion (v : list Z) (t : list nat) (pl pr : nat) : list nat :=
  fold_left
    (fun t pi =>
       let vi := get t pi in
       let '(t', pj) := shift (length t) v t pl (nth vi v 0%Z) pi in
       set t' pj vi)
    (seq (pl + 1) (pr - pl)) t.

(** Heap sort works on [a = tosort - 1], cells [1..n], here from the cell
    [base] of the array. *)
Definition hget (t : list nat) (base i : nat) : nat := get t (base + i - 1).

Definition hset (t : list nat) (base i x : nat) : list nat :=
  set t (base + i - 1) x.

(** The sift-down loop [for (i, j; j <= n;)], ended by [a[i] = tmp]. *)
Fixpoint sift (fuel : nat) (v : list Z) (t : list nat) (base n tmp i j : nat)
    : list nat :=
  match fuel with
  | 0 => hset t base i tmp
  | S f =>
      if n <? j then hset t base i tmp
      else
        let j :=
          if (j <? n)
             && (nth (hget t base j) v 0 <? nth (hget t base (j + 1)) v 0)%Z
          then j + 1 else j in
        if (nth tmp v 0 <? nth (hget t base j) v 0)%Z
        then sift f v (hset t base i (hget t base j)) base n tmp j (j + j)
        else hset t base i tmp
  end.

Fixpoint extract (fuel : nat) (v : list Z) (t : list nat) (base n : nat)
    : list nat :=
  match fuel with
  | 0 => t
  | S f =>
      if n <=? 1 then t
      else
        let tmp := hget t base n in
        let t := hset t base n (hget t base 1) in
        let t := sift (length t) v t base (n - 1) tmp 1 2 in
        extract f v t base (n - 1)
  end.

(** [aheapsort_(vv, pl, n)] *)
Definition aheapsort (v : list Z) (t : list nat) (base n : nat) : list nat :=
  let heap :=
    fold_left
      (fun t l => sift (length t) v t base n (hget t base l) l (l + l))
      (rev (seq 1 (Nat.div2 n))) t in
  extract n v heap base n.

(** The loop [while (1)] of [aquicksort_]: [fresh] tells that the cells
    [pl..pr] were just taken (at the start or from the stack), the only
    moment at which the depth is tested. *)
Fixpoint run (fuel : nat) (v : list Z) (t : list nat)
    (stack : list (nat * nat * Z)) (pl pr : nat) (cdepth : Z)
    (fresh : bool) : list nat :=
  match fuel with
  | 0 => t
  | S f =>
      let pop t :=
        match stack with
        | [] => t
        | (pl', pr', d) :: rest => run f v t rest pl' pr' d true
        end in
      if fresh && (cdepth <? 0)%Z then
        pop (aheapsort v t pl (pr - pl + 1))
      else if 16 <? pr - pl then
        let '(t, pi) := partition v t pl pr in
        let d := (cdepth - 1)%Z in
        if pi - pl <? pr - pi
        then run f v t ((pi + 1, pr, d) :: stack) pl (pi - 1) d false
        else run f v t ((pl, pi - 1, d) :: stack) (pi + 1) pr d false
      else pop (insertion v t pl pr)
  end.

(** [argsort(kind="quicksort")] of the keys [v]: the positions of the keys
    in ascending order. *)
Definition argsort (v : list Z) : list nat :=
  let num := length v in
  run (2 * num + 2) v (seq 0 num) [] 0 (num - 1)
    (2 * Z.of_nat (Nat.log2 num)) true.

End NumpySort.

(** The elements of [l] at the positions [idx], in the order of [idx]. *)
Definition take {A : Type} (l : list A) (idx : list nat) : list A :=
  flat_map (fun i => match nth_error l i with
                     | Some x => [x]
                     | None => []
                     end) idx.

(** The list is in ascending order. *)
Fixpoint ascending (l : list Z) : bool :=
  match l with
  | [] => true
  | x :: r => forallb (Z.leb x) r && ascending r
  end.

(** [idx] holds each of the positions [0..n-1] once. *)
Definition rearranges (n : nat) (idx : list nat) : bool :=
  (length idx <=? n) && forallb (fun i => existsb (Nat.eqb i) idx) (seq 0 n).

(** The rows taken in the order that [argsort] gives to their keys.  The
    result of [argsort] is checked, and the insertion sort stands in if it
    were not a sorted arrangement; so the function is a sort without a
    proof of the quicksort itself. *)
Definition quicksort_by (A : Type) (key : A -> Z) (l : list A) : list A :=
  let idx := NumpySort.argsort (map key l) in
  let res := take l idx in
  if rearranges (length l) idx && ascending (map key res) then res
  else insertion_sort true A key l.

Definition has_date (c : crow) : bool :=
  match Date (row_of c) with Some _ => true | None => false end.

Definition date_key (c : crow) : Z :=
  match Date (row_of c) with Some d => d | None => 0%Z end.

(** [df.sort_values("Date")]: the rows that have a date in ascending order
    of it, then the rows without a date, in the order they had
    ([na_position="last"]). *)
Definition sort_values_Date (S : sorter) (df : list crow) : list crow :=
  sort_by S crow date_key (filter has_date df)
  ++ filter (fun c => negb (has_date c)) df.

(** [sort_values(key, ascending=False)] on a column without missing values:
    pandas reverses the rows, sorts ascending and reverses the result. *)
Definition sort_values_desc (S : sorter) {A : Type} (key : A -> Z)
    (l : list A) : list A :=
  rev (sort_by S A key (rev l)).

(* ================================================================= *)
(** ** The appearance cap *)

Definition name_of (c : crow) : str := Name (row_of c).

Definition count_name (n : str) (seen : list str) : nat :=
  length (filter (str_eqb n) seen).

(** [groupby("Name").cumcount()]: for each row, the number of rows above it
    that carry the same name ([seen] holds the names of the rows above). *)
Fixpoint cumcount_from (seen : list str) (df : list crow) : list nat :=
  match df with
  | [] => []
  | c :: rest =>
      count_name (name_of c) seen :: cumcount_from (name_of c :: seen) rest
  end.

Definition cumcount (df : list crow) : list nat := cumcount_from [] df.

(** The [Appearances] column: [cumcount() + 1]. *)
Definition Appearances (df : list crow) : list nat :=
  map (fun k => k + 1) (cumcount df).

(** [df[df["Appearances"] <= 3]] (the [Appearances] column itself is not
    kept in the model). *)
Definition limit_appearances (df : list crow) : list crow :=
  map fst (filter (fun p => snd p <=? 3) (combine df (Appearances df))).

(* ================================================================= *)
(** ** Aggregation *)

(** The grouping key [(Name, Sex, Division)]. *)
Definition key := (str * str * str)%type.

Definition key_eqb (k1 k2 : key) : bool :=
  let '(n1, s1, d1) := k1 in
  let '(n2, s2, d2) := k2 in
  str_eqb n1 n2 && str_eqb s1 s2 && str_eqb d1 d2.

(** Order of the group keys: lexicographic on the three columns. *)
Definition key_compare (k1 k2 : key) : comparison :=
  let '(n1, s1, d1) := k1 in
  let '(n2, s2, d2) := k2 in
  match str_compare n1 n2 with
  | Eq => match str_compare s1 s2 with
          | Eq => str_compare d1 d2
          | c => c
          end
  | c => c
  end.

(** The key of a row; a row in which [Sex] or [Division] is missing belongs
    to no group ([groupby] drops it). *)
Definition group_key (c : crow) : option key :=
  match Sex (row_of c), Division c with
  | Some s, Some d => Some (name_of c, s, d)
  | _, _ => None
  end.

Fixpoint insert_key (k : key) (ks : list key) : list key :=
  match ks with
  | [] => [k]
  | k' :: rest =>
      match key_compare k k' with
      | Lt => k :: ks
      | Eq => ks
      | Gt => k' :: insert_key k rest
      end
  end.

(** The distinct keys of the frame, in ascending order ([sort=True]). *)
Definition group_keys (df : list crow) : list key :=
  fold_right
    (fun c ks => match group_key c with
                 | Some k => insert_key k ks
                 | None => ks
                 end) [] df.

Definition in_group (k : key) (c : crow) : bool :=
  match group_key c with
  | Some k' => key_eqb k k'
  | None => false
  end.

(** The numeric kernels of pandas that the program runs: the sort of
    [sort_values] and the sum of [groupby(...).sum()].  The sum is some
    function of the scores of a group, given in frame order; nothing is
    assumed of it, for it is not the sum of the integers: on an integer
    column it wraps around at 64 bits, on a floating-point column it
    rounds. *)
Record pandas := mkPandas {
  sorting :> sorter;
  group_sum : list Z -> Z
}.

(** The scores of the rows, in frame order; a missing score is skipped. *)
Definition present_dots (rows : list crow) : list Z :=
  flat_map (fun c => match Dots (row_of c) with
                     | Some v => [v]
                     | None => []
                     end) rows.

(** The sum of the [Dots] column over the rows of one group. *)
Definition sum_dots (P : pandas) (rows : list crow) : Z :=
  group_sum P (present_dots rows).

(** A 64-bit signed integer: the value after wrap-around. *)
Definition wrap64 (z : Z) : Z := ((z + 2 ^ 63) mod 2 ^ 64 - 2 ^ 63)%Z.

(** The sum of an [int64] column: the scores are added one after the
    other in 64-bit arithmetic. *)
Definition int64_sum (vals : list Z) : Z :=
  fold_left (fun acc v => wrap64 (acc + v)) vals 0%Z.

(** A row of the aggregated frame. *)
Record agg_row := mkAgg {
  agg_key : key;
  total : Z
}.

Definition agg_name (x : agg_row) : str := fst (fst (agg_key x)).
Definition agg_sex (x : agg_row) : str := snd (fst (agg_key x)).
Definition agg_division (x : agg_row) : str := snd (agg_key x).

(** [df.groupby(["Name", "Sex", "Division"], as_index=False)["Dots"].sum()] *)
Definition groupby_sum (P : pandas) (df : list crow) : list agg_row :=
  map (fun k => mkAgg k (sum_dots P (filter (in_group k) df)))
    (group_keys df).

(* ================================================================= *)
(** ** Ranking *)

Definition beats (x y : agg_row) : bool :=
  str_eqb (agg_division y) (agg_division x) && (total x <? total y)%Z.

(** [groupby("Division")["Dots"].rank(ascending=False, method="min")] at
    row [x]: one more than the number of rows of the same division with a
    strictly larger total. *)
Definition rank_min (agg : list agg_row) (x : agg_row) : nat :=
  S (length (filter (beats x) agg)).

(** A row of the returned frame. *)
Record ranked := mkRanked {
  entry : agg_row;
  Rank : nat
}.

Definition add_rank (agg : list agg_row) : list ranked :=
  map (fun x => mkRanked x (rank_min agg x)) agg.

(* ================================================================= *)
(** ** The pipeline *)

(** [process_novice(df)] *)
Definition process_novice (S : pandas) (df : list record) : list ranked :=
  let df1 := with_division df in
  let df2 := sort_values_Date S df1 in
  let df3 := limit_appearances df2 in
  let agg := sort_values_desc S total (groupby_sum S df3) in
  add_rank agg.

(* ================================================================= *)
(** ** Notions used in the statements *)

(** The strict order of the group keys. *)
Definition key_lt (k1 k2 : key) : Prop := key_compare k1 k2 = Lt.

(** Chronological order of two rows, a missing date counting as the
    latest. *)
Definition date_le (c1 c2 : crow) : Prop :=
  match Date (row_of c1), Date (row_of c2) with
  | Some a, Some b => (a <= b)%Z
  | _, None => True
  | None, Some _ => False
  end.

(** The rows of the frame that carry the name [n], in frame order. *)
Definition by_name (n : str) (df : list crow) : list crow :=
  filter (fun c => str_eqb n (name_of c)) df.

(** The cap when the rows above the frame carried the names [seen]. *)
Definition limit_from (seen : list str) (df : list crow) : list crow :=
  map fst
    (filter (fun p => snd p <=? 3)
       (combine df (map (fun k => k + 1) (cumcount_from seen df)))).

(** Lines 46 to 51 of the program: sort by date, then cap. *)
Definition limiter (S : sorter) (df : list crow) : list crow :=
  limit_appearances (sort_values_Date S df).

(** The row [r] with its division. *)
Definition crow_of (r : record) : crow := mkCrow r (assign_division r).

(** The row has no date. *)
Definition undated (c : crow) : bool := negb (has_date c).

(** The aggregated frame of the pipeline, before ranks are added. *)
Definition aggregated (S : pandas) (df : list record) : list agg_row :=
  sort_values_desc S total (groupby_sum S (limiter S (with_division df))).

(** All the rows of the name [n], classifiable or not, in date order. *)
Definition rows_of_name (S : sorter) (df : list record) (n : str)
    : list crow :=
  by_name n (sort_values_Date S (with_division df)).

(** The three earliest of them. *)
Definition earliest3 (S : sorter) (df : list record) (n : str) : list crow :=
  firstn 3 (rows_of_name S df n).

(** The rows of the name after the third. *)
Definition later_rows (S : sorter) (df : list record) (n : str)
    : list crow :=
  skipn 3 (rows_of_name S df n).

(** A qualifying appearance: the age gave a division and the score is
    present. *)
Definition qualifying (c : crow) : bool :=
  match Division c, Dots (row_of c) with
  | Some _, Some _ => true
  | _, _ => false
  end.

(** The kept rows that are summed in the output row [x]. *)
Definition contributing (S : sorter) (df : list record) (x : ranked)
    : list crow :=
  filter (in_group (agg_key (entry x))) (limiter S (with_division df)).

(** The output rows of the name [n]. *)
Definition rows_named (n : str) (out : list ranked) : list ranked :=
  filter (fun x => str_eqb n (agg_name (entry x))) out.

(** The key and the total of an output row. *)
Definition out_key (x : ranked) : key := agg_key (entry x).

(** The row has a division; the row has an age. *)
Definition classifiable (c : crow) : bool :=
  match Division c with Some _ => true | None => false end.

Definition has_age (c : crow) : bool :=
  match Age (row_of c) with Some _ => true | None => false end.

(** The order of stages as the specification words it: classify, drop the
    unclassifiable rows, limit the appearances, aggregate, rank. *)
Definition pipeline_spec_order (S : pandas) (df : list record)
    : list ranked :=
  let classified := with_division df in
  let dropped := filter classifiable classified in
  let capped := limiter S dropped in
  add_rank (sort_values_desc S total (groupby_sum S capped)).

(** The table of one division, as the leaderboard shows it
    ([df[df["Division"] == div]]). *)
Definition division_table (d : str) (out : list ranked) : list ranked :=
  filter (fun x => str_eqb d (agg_division (entry x))) out.

Definition out_total (x : ranked) : Z := total (entry x).

(** The minimum-rank convention in the words of the specification, along a
    table in descending order of total: the first row has rank 1, a row
    tied with the row above it shares the rank of that row, and any other
    row has its position in the table as its rank.  [pos] is the position
    of the next row, [prev] and [prev_rank] the total and the rank of the
    row above. *)
Fixpoint competition_ranks_from (pos : nat) (prev : Z) (prev_rank : nat)
    (totals : list Z) : list nat :=
  match totals with
  | [] => []
  | v :: rest =>
      let r := if (v =? prev)%Z then prev_rank else pos in
      r :: competition_ranks_from (S pos) v r rest
  end.

Definition competition_ranks (totals : list Z) : list nat :=
  match totals with
  | [] => []
  | v :: rest => 1 :: competition_ranks_from 2 v 1 rest
  end.

(** The number of values of [l] strictly above [v]. *)
Definition count_above (v : Z) (l : list Z) : nat :=
  length (filter (fun w => (v <? w)%Z) l).

(** The list is in descending order. *)
Definition descending (l : list Z) : Prop :=
  StronglySorted (fun a b => (b <= a)%Z) l.

(** The rows of the aggregated frame that belong to division [d]. *)
Definition division_rows (d : str) (agg : list agg_row) : list agg_row :=
  filter (fun a => str_eqb d (agg_division a)) agg.

(* ================================================================= *)
(** ** The leaderboard display *)

(** The tabs of [render_leaderboard], in display order. *)
Definition divisions : list str :=
  [ codepoints "Open Men"; codepoints "Open Women";
    codepoints "Junior Men"; codepoints "Junior Women";
    codepoints "Masters Men"; codepoints "Masters Women" ].

(** [s.replace(' ', '_')] *)
Definition replace_blank (s : str) : str :=
  map (fun c => if (c =? 32)%N then 95%N else c) s.

(** What one tab shows: the notice [st.info] when the division has no row,
    else the table of the columns [Rank], [Name], [Dots] and a download
    button with its label, the frame it exports ([sub.to_csv]; the text of
    the export is not modelled), its file name and its widget key. *)
Inductive tab : Type :=
| NoData (message : str)
| Board (table : list (nat * str * Z)) (label : str)
    (exported : list ranked) (file_name : str) (widget_key : str).

(** The body of the loop of [render_leaderboard] for the division [div]. *)
Definition render_tab (df : list ranked) (div : str) : tab :=
  let sub := division_table div df in
  match sub with
  | [] => NoData (codepoints "No data for " ++ div)
  | _ :: _ =>
      Board (map (fun x => (Rank x, agg_name (entry x), out_total x)) sub)
        ([128229%N] ++ codepoints " Download " ++ div ++ codepoints " CSV")
        sub
        (replace_blank div ++ codepoints ".csv")
        div
  end.

(** [render_leaderboard(df)]: the tabs, one per division (the fixed text
    above the tabs is left out). *)
Definition render_leaderboard (df : list ranked) : list tab :=
  map (render_tab df) divisions.

(** The rows of the frame that a tab holds. *)
Definition tab_rows (t : tab) : list ranked :=
  match t with
  | NoData _ => []
  | Board _ _ exported _ _ => exported
  end.

(** The row has a group key: its sex and its division are present. *)
Definition has_group (c : crow) : bool :=
  match group_key c with Some _ => true | None => false end.

(** The row has a sex. *)
Definition has_sex (c : crow) : bool :=
  match Sex (row_of c) with Some _ => true | None => false end.

(** The row belongs to the group of one of the keys [ks]. *)
Definition in_groups (ks : list key) (c : crow) : bool :=
  existsb (fun k => in_group k c) ks.

(** No two rows of the file are one lifter on one date, and every row has
    a date. *)
Definition distinct_appearances (df : list record) : Prop :=
  NoDup (map (fun r => (Name r, Date r)) df)
  /\ forall r, In r df -> Date r <> None.

(* ================================================================= *)
(** ** Sample frames *)

(** A row of the Open band whose sex is written with a blank in front. *)
Definition row_blank_M : record :=
  mkRecord (codepoints "A") (Some (codepoints " M")) (Some 30%Q)
    (Some 100%Z) (Some 1%Z).

(** Two appearances of one lifter, the later one first in the file. *)
Definition df_two : list crow :=
  [ crow_of (mkRecord (codepoints "A") (Some (codepoints "M")) (Some 30%Q)
               (Some 200%Z) (Some 2%Z));
    crow_of (mkRecord (codepoints "A") (Some (codepoints "M")) (Some 30%Q)
               (Some 100%Z) (Some 1%Z)) ].

(** The sex column of a man. *)
Definition male : option str := Some (codepoints "M").

(** The lifter [A], a junior man, with four dated appearances. *)
Definition df_four : list record :=
  [ mkRecord (codepoints "A") male (Some 22%Q) (Some 100%Z) (Some 1%Z);
    mkRecord (codepoints "A") male (Some 22%Q) (Some 200%Z) (Some 2%Z);
    mkRecord (codepoints "A") male (Some 22%Q) (Some 150%Z) (Some 3%Z);
    mkRecord (codepoints "A") male (Some 22%Q) (Some 300%Z) (Some 4%Z) ].

(** The output row of [A] with the three earliest scores summed. *)
Definition row_A_450 : ranked :=
  mkRanked
    (mkAgg (codepoints "A", codepoints "M", codepoints "Junior Men") 450%Z)
    1.

(** The same lifter when the age is missing from the earliest of the four
    rows: three qualifying appearances are left. *)
Definition df_first_no_age : list record :=
  [ mkRecord (codepoints "A") male None (Some 100%Z) (Some 1%Z);
    mkRecord (codepoints "A") male (Some 22%Q) (Some 200%Z) (Some 2%Z);
    mkRecord (codepoints "A") male (Some 22%Q) (Some 150%Z) (Some 3%Z);
    mkRecord (codepoints "A") male (Some 22%Q) (Some 300%Z) (Some 4%Z) ].

(** An appearance of [A] with no age. *)
Definition row_no_age : record :=
  mkRecord (codepoints "A") male None (Some 200%Z) (Some 2%Z).

(** The latest of the four appearances. *)
Definition row_date4 : record :=
  mkRecord (codepoints "A") male (Some 30%Q) (Some 300%Z) (Some 4%Z).

(** Four appearances of [A]; the age is missing from the second. *)
Definition df_second_no_age : list record :=
  [ mkRecord (codepoints "A") male (Some 30%Q) (Some 100%Z) (Some 1%Z);
    row_no_age;
    mkRecord (codepoints "A") male (Some 30%Q) (Some 150%Z) (Some 3%Z);
    row_date4 ].

(** One row, the age missing. *)
Definition df_no_age : list record :=
  [ mkRecord (codepoints "A") male None (Some 100%Z) (Some 1%Z) ].

(** One appearance of an open man. *)
Definition open_man (n : String.string) (dots : Z) : record :=
  mkRecord (codepoints n) male (Some 30%Q) (Some dots) (Some 1%Z).

(** Three open men, one appearance each: [B] and [A] tie at 450, [C] has
    500. *)
Definition df_tie : list record :=
  [ open_man "B" 450; open_man "A" 450; open_man "C" 500 ].

(** An output row of the division Open Men. *)
Definition out_row (n : String.string) (dots : Z) (rank : nat) : ranked :=
  mkRanked (mkAgg (codepoints n, codepoints "M", codepoints "Open Men") dots)
    rank.

(** Four appearances of [A]: two as a junior, then two in the open band. *)
Definition df_two_divisions : list record :=
  [ mkRecord (codepoints "A") male (Some 23%Q) (Some 100%Z) (Some 1%Z);
    mkRecord (codepoints "A") male (Some 23%Q) (Some 200%Z) (Some 2%Z);
    mkRecord (codepoints "A") male (Some 24%Q) (Some 150%Z) (Some 3%Z);
    mkRecord (codepoints "A") male (Some 24%Q) (Some 300%Z) (Some 4%Z) ].

(** A row of the given age and sex. *)
Definition row_of_age_sex (age : Q) (sex : String.string) : record :=
  mkRecord (codepoints "A") (Some (codepoints sex)) (Some age) (Some 1%Z)
    (Some 1%Z).

(** The first three appearances of [A], and the fourth. *)
Definition df_three : list record :=
  [ mkRecord (codepoints "A") male (Some 22%Q) (Some 100%Z) (Some 1%Z);
    mkRecord (codepoints "A") male (Some 22%Q) (Some 200%Z) (Some 2%Z);
    mkRecord (codepoints "A") male (Some 22%Q) (Some 150%Z) (Some 3%Z) ].

(** The appearance of [A] on date 4. *)
Definition row_fourth : record :=
  mkRecord (codepoints "A") male (Some 22%Q) (Some 300%Z) (Some 4%Z).

(** The earliest and the latest of the four rows of [df_two_divisions],
    and its two output rows. *)
Definition crow_date1 : crow :=
  crow_of (mkRecord (codepoints "A") male (Some 23%Q) (Some 100%Z)
             (Some 1%Z)).

Definition crow_date4 : crow :=
  crow_of (mkRecord (codepoints "A") male (Some 24%Q) (Some 300%Z)
             (Some 4%Z)).

Definition row_A_junior : ranked :=
  mkRanked
    (mkAgg (codepoints "A", codepoints "M", codepoints "Junior Men") 300%Z)
    1.



(* ================================================================= *)
(** ** Insertion sort is a sorter *)

Section InsertionSort.

Variable front : bool.
Variable A : Type.
Variable key : A -> Z.

Let le_key (x y : A) : Prop := (key x <= key y)%Z.

Lemma insert_by_perm x l : Permutation (insert_by front key x l) (x :: l).
Proof.
  induction l as [|y t IH]; simpl; [reflexivity|].
  destruct (if front then _ else _); [reflexivity|].
  rewrite IH. apply perm_swap.
Qed.

Lemma insertion_sort_perm l : Permutation (insertion_sort front A key l) l.
Proof.
  induction l as [|x l IH]; simpl; [constructor|].
  rewrite insert_by_perm. now constructor.
Qed.

Lemma insert_by_sorted x l :
  StronglySorted le_key l -> StronglySorted le_key (insert_by front key x l).
Proof.
  induction 1 as [|y t Hs IH Hy]; simpl.
  - repeat constructor.
  - destruct (if front then _ else _) eqn:E.
    + constructor; [now constructor|].
      assert (Hxy : (key x <= key y)%Z).
      { destruct front; [apply Z.leb_le in E | apply Z.ltb_lt in E]; lia. }
      constructor; [exact Hxy|].
      eapply Forall_impl; [|exact Hy]. unfold le_key. intros z Hz. lia.
    + constructor; [exact IH|].
      assert (Hyx : (key y <= key x)%Z).
      { destruct front; [apply Z.leb_gt in E | apply Z.ltb_ge in E]; lia. }
      apply Forall_forall. intros z Hz.
      apply (Permutation_in _ (insert_by_perm x t)) in Hz.
      destruct Hz as [<-|Hz]; [exact Hyx|].
      rewrite Forall_forall in Hy. now apply Hy.
Qed.

Lemma insertion_sort_sorted l :
  StronglySorted le_key (insertion_sort front A key l).
Proof.
  induction l as [|x l IH]; simpl; [constructor|].
  now apply insert_by_sorted.
Qed.

End InsertionSort.

(** The stable insertion sort: rows of equal key keep their order. *)
Definition stable_sorter : sorter :=
  mkSorter (insertion_sort true)
    (insertion_sort_perm true) (insertion_sort_sorted true).

(** The insertion sort that reverses the rows of equal key. *)
Definition reversing_sorter : sorter :=
  mkSorter (insertion_sort false)
    (insertion_sort_perm false) (insertion_sort_sorted false).

(** The kernels with which the sample frames are run: their scores are
    integers, so the [Dots] column is an [int64] column. *)
Definition stable_pandas : pandas := mkPandas stable_sorter int64_sum.

Definition reversing_pandas : pandas := mkPandas reversing_sorter int64_sum.

(* ================================================================= *)
(** ** The quicksort of numpy is a sorter *)

Lemma take_perm {A : Type} (l : list A) idx idx' :
  Permutation idx idx' -> Permutation (take l idx) (take l idx').
Proof.
  unfold take.
  induction 1 as [|i idx idx' _ IH|i j idx|idx1 idx2 idx3 _ IH1 _ IH2];
    simpl.
  - constructor.
  - now apply Permutation_app_head.
  - rewrite !app_assoc. apply Permutation_app_tail, Permutation_app_comm.
  - now transitivity
      (flat_map (fun i => match nth_error l i with
                          | Some x => [x]
                          | None => []
                          end) idx2).
Qed.

Lemma take_seq {A : Type} (l : list A) : forall p,
  take (p ++ l) (seq (length p) (length l)) = l.
Proof.
  induction l as [|x l IH]; intros p; [reflexivity|].
  cbn [length seq take flat_map].
  rewrite nth_error_app2 by lia. rewrite Nat.sub_diag. simpl. f_equal.
  specialize (IH (p ++ [x])). rewrite <- app_assoc, length_app in IH.
  simpl in IH. rewrite Nat.add_1_r in IH. exact IH.
Qed.

Lemma rearranges_perm n idx :
  rearranges n idx = true -> Permutation (seq 0 n) idx.
Proof.
  unfold rearranges. intros H. apply andb_true_iff in H as [Hlen Hall].
  apply Nat.leb_le in Hlen. rewrite forallb_forall in Hall.
  apply NoDup_Permutation_bis.
  - apply seq_NoDup.
  - now rewrite length_seq.
  - intros i Hi. specialize (Hall i Hi).
    apply existsb_exists in Hall as [j [Hj E]].
    apply Nat.eqb_eq in E. now subst j.
Qed.

Lemma ascending_sorted l :
  ascending l = true -> StronglySorted Z.le l.
Proof.
  induction l as [|x l IH]; simpl; intros H; constructor.
  - apply IH. now apply andb_true_iff in H.
  - apply andb_true_iff in H as [H _]. rewrite forallb_forall in H.
    apply Forall_forall. intros y Hy. apply Z.leb_le. auto.
Qed.

Lemma StronglySorted_of_map {A : Type} (key : A -> Z) l :
  StronglySorted Z.le (map key l) ->
  StronglySorted (fun x y => (key x <= key y)%Z) l.
Proof.
  induction l as [|x l IH]; simpl; intros H; constructor.
  - apply IH. now apply StronglySorted_inv in H.
  - apply StronglySorted_inv in H as [_ H]. rewrite Forall_map in H.
    exact H.
Qed.

Lemma quicksort_by_perm A (key : A -> Z) l :
  Permutation (quicksort_by A key l) l.
Proof.
  unfold quicksort_by.
  destruct (rearranges (length l) (NumpySort.argsort (map key l))
            && ascending (map key (take l (NumpySort.argsort (map key l)))))
    eqn:E.
  - apply andb_true_iff in E as [E _]. apply rearranges_perm in E.
    rewrite <- (take_perm l _ _ E). apply Permutation_refl'.
    exact (take_seq l []).
  - apply insertion_sort_perm.
Qed.

Lemma quicksort_by_sorted A (key : A -> Z) l :
  StronglySorted (fun x y => (key x <= key y)%Z) (quicksort_by A key l).
Proof.
  unfold quicksort_by.
  destruct (rearranges (length l) (NumpySort.argsort (map key l))
            && ascending (map key (take l (NumpySort.argsort (map key l)))))
    eqn:E.
  - apply andb_true_iff in E as [_ E].
    now apply StronglySorted_of_map, ascending_sorted.
  - apply insertion_sort_sorted.
Qed.

(** The default sort of numpy, and the kernels of the program on a frame
    whose scores are integers. *)
Definition numpy_sorter : sorter :=
  mkSorter quicksort_by quicksort_by_perm quicksort_by_sorted.

Definition numpy_pandas : pandas := mkPandas numpy_sorter int64_sum.

(* ================================================================= *)
(** ** Facts about strings *)

Lemma startswith_nil s : startswith s [] = true.
Proof. now destruct s. Qed.

Lemma startswith_cons a p b s :
  startswith (b :: s) (a :: p) = ((a =? b)%N && startswith s p).
Proof. reflexivity. Qed.

Lemma str_eqb_eq a b : str_eqb a b = true <-> a = b.
Proof.
  unfold str_eqb. destruct (list_eq_dec N.eq_dec a b); split;
    congruence.
Qed.

Lemma str_eqb_refl a : str_eqb a a = true.
Proof. now apply str_eqb_eq. Qed.

Lemma str_eqb_neq a b : str_eqb a b = false <-> a <> b.
Proof.
  unfold str_eqb. destruct (list_eq_dec N.eq_dec a b); split;
    congruence.
Qed.

Lemma lstrip_head s c rest :
  lstrip s = c :: rest -> isspace c = false.
Proof.
  induction s as [|d s IH]; simpl; [discriminate|].
  destruct (isspace d) eqn:E; [exact IH|].
  intros H. injection H as -> _. exact E.
Qed.

Lemma lstrip_app_nonspace s t c :
  isspace c = false -> lstrip (s ++ c :: t) = lstrip s ++ c :: t
    \/ (lstrip s = [] /\ lstrip (s ++ c :: t) = c :: t).
Proof.
  intros Hc. induction s as [|d s IH]; simpl.
  - rewrite Hc. now right.
  - destruct (isspace d); [exact IH | now left].
Qed.

(** Stripping keeps the first non-blank character in front. *)
Lemma strip_head s c rest :
  lstrip s = c :: rest -> exists rest', strip s = c :: rest'.
Proof.
  intros H. unfold strip, rstrip. rewrite H.
  pose proof (lstrip_head _ _ _ H) as Hc.
  change (c :: rest) with ([c] ++ rest). rewrite rev_app_distr. simpl.
  destruct (lstrip_app_nonspace (rev rest) [] c Hc) as [E | [_ E]];
    rewrite E.
  - rewrite rev_app_distr. simpl. eauto.
  - simpl. eauto.
Qed.

Lemma strip_nil s : lstrip s = [] -> strip s = [].
Proof. intros H. unfold strip, rstrip. now rewrite H. Qed.

Lemma leading_m_strip s : leading_m (strip s) = leading_m (lstrip s).
Proof.
  destruct (lstrip s) as [|c rest] eqn:E.
  - now rewrite (strip_nil _ E).
  - destruct (strip_head _ _ _ E) as [rest' ->]. reflexivity.
Qed.

Lemma toupper_M c : (toupper c =? 77)%N = ((c =? 109) || (c =? 77))%N.
Proof.
  unfold toupper.
  destruct ((97 <=? c) && (c <=? 122))%N eqn:E.
  - apply andb_true_iff in E as [E1 E2].
    apply N.leb_le in E1, E2.
    destruct (N.eqb_spec c 109), (N.eqb_spec c 77),
      (N.eqb_spec (c - 32) 77); simpl; try reflexivity; lia.
  - destruct (N.eqb_spec c 109) as [->|Hn]; [discriminate E|].
    now destruct (N.eqb_spec c 77).
Qed.

(** [s.upper().startswith("M")] holds exactly when [s] begins with [m] or
    [M]. *)
Lemma upper_startswith_M s :
  startswith (upper s) (codepoints "M") = leading_m s.
Proof.
  destruct s as [|c s]; [reflexivity|].
  unfold upper. simpl map. change (codepoints "M") with [77%N].
  rewrite startswith_cons, startswith_nil, andb_true_r, N.eqb_sym.
  apply toupper_M.
Qed.

(* ================================================================= *)
(** ** Division assignment *)

Lemma Qltb_lt a b : Qltb a b = true <-> (a < b)%Q.
Proof.
  unfold Qltb. rewrite negb_true_iff. split.
  - intros H. apply Qnot_le_lt. intros Hle.
    apply Qle_bool_iff in Hle. congruence.
  - intros H. destruct (Qle_bool b a) eqn:E; [|reflexivity].
    apply Qle_bool_iff in E. now apply Qlt_not_le in H.
Qed.

Lemma Qltb_ge a b : Qltb a b = false <-> (b <= a)%Q.
Proof.
  unfold Qltb. rewrite negb_false_iff. apply Qle_bool_iff.
Qed.

(** The sex bucket test of [assign_division] looks at the first character
    that is left once the blanks in front are removed. *)
Lemma gender_test s :
  startswith (upper (strip s)) (codepoints "M") = leading_m (lstrip s).
Proof. now rewrite upper_startswith_M, leading_m_strip. Qed.

Lemma assign_division_None row :
  assign_division row = None <-> Age row = None.
Proof.
  unfold assign_division. destruct (Age row); split; congruence.
Qed.

(** C3 (as amended).  For a row whose age [age] is present the label is
    the age band, a blank and the sex bucket: the band is Junior below 24,
    Open from 24 up to but not including 40, Masters from 40 on; the bucket
    is Men exactly when the text of the sex, once the blanks in front of it
    are stripped, begins with [m] or [M], and Women otherwise, in
    particular when the sex is absent. *)
Theorem assign_division_label (row : record) (age : Q) :
  Age row = Some age ->
  exists band bucket : str,
    assign_division row = Some (band ++ space ++ bucket)
    /\ ((age < 24)%Q -> band = Junior)
    /\ ((24 <= age)%Q -> (age < 40)%Q -> band = Open)
    /\ ((40 <= age)%Q -> band = Masters)
    /\ (leading_m (lstrip (sex_text (Sex row))) = true -> bucket = Men)
    /\ (leading_m (lstrip (sex_text (Sex row))) = false -> bucket = Women)
    /\ (Sex row = None -> bucket = Women).
Proof.
  intros HA. unfold assign_division. rewrite HA, gender_test.
  eexists. eexists. split; [reflexivity|].
  repeat split.
  - intros H. apply Qltb_lt in H. now rewrite H.
  - intros H1 H2. apply Qltb_ge in H1. apply Qltb_lt in H2.
    now rewrite H1, H2.
  - intros H.
    assert (H1 : Qltb age 40 = false) by now apply Qltb_ge.
    assert (H2 : Qltb age 24 = false).
    { apply Qltb_ge. eapply Qle_trans; [|exact H]. discriminate. }
    now rewrite H1, H2.
  - now intros ->.
  - now intros ->.
  - now intros ->.
Qed.

Lemma assign_division_label_witness :
  Age row_blank_M = Some 30%Q
  /\ exists band bucket : str,
       assign_division row_blank_M = Some (band ++ space ++ bucket)
       /\ ((30 < 24)%Q -> band = Junior)
       /\ ((24 <= 30)%Q -> (30 < 40)%Q -> band = Open)
       /\ ((40 <= 30)%Q -> band = Masters)
       /\ (leading_m (lstrip (sex_text (Sex row_blank_M))) = true ->
           bucket = Men)
       /\ (leading_m (lstrip (sex_text (Sex row_blank_M))) = false ->
           bucket = Women)
       /\ (Sex row_blank_M = None -> bucket = Women).
Proof.
  split; [reflexivity|].
  apply (assign_division_label row_blank_M 30%Q). reflexivity.
Defined.

(** C3 (as stated) fails: the sex text [" M"] does not begin with [m] or
    [M], and the row is put in the Men bucket all the same. *)
Lemma assign_division_blank_M :
  leading_m (sex_text (Sex row_blank_M)) = false
  /\ assign_division row_blank_M = Some (codepoints "Open Men").
Proof. split; reflexivity. Qed.

(* ================================================================= *)
(** ** The order of strings and of group keys *)

Lemma str_compare_eq a b : str_compare a b = Eq <-> a = b.
Proof.
  revert b. induction a as [|x a IH]; intros [|y b]; simpl;
    try (split; congruence).
  destruct (N.compare_spec x y) as [->|H|H].
  - rewrite IH. split; congruence.
  - split; [discriminate|]. intros E. injection E as -> _. lia.
  - split; [discriminate|]. intros E. injection E as -> _. lia.
Qed.

Lemma str_compare_refl a : str_compare a a = Eq.
Proof. now apply str_compare_eq. Qed.

Lemma str_compare_antisym a b :
  str_compare b a = CompOpp (str_compare a b).
Proof.
  revert b. induction a as [|x a IH]; intros [|y b]; simpl; try reflexivity.
  rewrite (N.compare_antisym x y).
  destruct (x ?= y)%N; simpl; auto.
Qed.

Lemma str_compare_lt_trans a b c :
  str_compare a b = Lt -> str_compare b c = Lt -> str_compare a c = Lt.
Proof.
  revert b c. induction a as [|x a IH]; intros [|y b] [|z c]; simpl;
    try congruence.
  destruct (N.compare_spec x y) as [->|Hxy|Hxy]; try discriminate.
  - destruct (z ?= y)%N eqn:E; rewrite N.compare_antisym, E; simpl;
      try congruence.
    apply IH.
  - intros _.
    destruct (N.compare_spec y z) as [->|Hyz|Hyz]; try discriminate;
      intros _.
    + now apply N.compare_lt_iff in Hxy as ->.
    + assert (H : (x < z)%N) by lia.
      now apply N.compare_lt_iff in H as ->.
Qed.

Lemma key_eqb_eq k1 k2 : key_eqb k1 k2 = true <-> k1 = k2.
Proof.
  destruct k1 as [[n1 s1] d1], k2 as [[n2 s2] d2]. simpl.
  rewrite !andb_true_iff, !str_eqb_eq. split.
  - intros [[-> ->] ->]. reflexivity.
  - intros E. injection E as -> -> ->. auto.
Qed.

Lemma key_eqb_refl k : key_eqb k k = true.
Proof. now apply key_eqb_eq. Qed.

Lemma key_compare_eq k1 k2 : key_compare k1 k2 = Eq <-> k1 = k2.
Proof.
  destruct k1 as [[n1 s1] d1], k2 as [[n2 s2] d2]. simpl. split.
  - destruct (str_compare n1 n2) eqn:En; try discriminate.
    destruct (str_compare s1 s2) eqn:Es; try discriminate.
    intros Ed.
    apply str_compare_eq in En, Es, Ed. congruence.
  - intros E. injection E as -> -> ->.
    now rewrite !str_compare_refl.
Qed.

Lemma key_compare_antisym k1 k2 :
  key_compare k2 k1 = CompOpp (key_compare k1 k2).
Proof.
  destruct k1 as [[n1 s1] d1], k2 as [[n2 s2] d2]. simpl.
  rewrite (str_compare_antisym n1 n2), (str_compare_antisym s1 s2),
    (str_compare_antisym d1 d2).
  destruct (str_compare n1 n2); simpl; auto.
  destruct (str_compare s1 s2); simpl; auto.
Qed.

Lemma key_compare_lt_trans k1 k2 k3 :
  key_compare k1 k2 = Lt -> key_compare k2 k3 = Lt ->
  key_compare k1 k3 = Lt.
Proof.
  destruct k1 as [[n1 s1] d1], k2 as [[n2 s2] d2], k3 as [[n3 s3] d3].
  simpl.
  destruct (str_compare n1 n2) eqn:E12; try discriminate.
  - apply str_compare_eq in E12 as ->.
    destruct (str_compare n2 n3) eqn:E23; try discriminate; [|auto].
    destruct (str_compare s1 s2) eqn:F12; try discriminate.
    + apply str_compare_eq in F12 as ->.
      destruct (str_compare s2 s3); try discriminate; [|auto].
      apply str_compare_lt_trans.
    + intros _.
      destruct (str_compare s2 s3) eqn:F23; try discriminate; intros _.
      * apply str_compare_eq in F23 as <-. now rewrite F12.
      * now rewrite (str_compare_lt_trans _ _ _ F12 F23).
  - intros _.
    destruct (str_compare n2 n3) eqn:E23; try discriminate; intros _.
    + apply str_compare_eq in E23 as <-. now rewrite E12.
    + now rewrite (str_compare_lt_trans _ _ _ E12 E23).
Qed.

Lemma key_lt_irrefl k : ~ key_lt k k.
Proof.
  unfold key_lt. intros H.
  assert (E : key_compare k k = Eq) by now apply key_compare_eq.
  congruence.
Qed.

(* ================================================================= *)
(** ** Lists: filters, permutations and sorted lists *)

Section ListFacts.

Context {A : Type}.

Lemma filter_perm (f : A -> bool) l l' :
  Permutation l l' -> Permutation (filter f l) (filter f l').
Proof.
  induction 1 as [|x l l' _ IH|x y l|l l' l'' _ IH1 _ IH2]; simpl.
  - constructor.
  - destruct (f x); [now constructor | exact IH].
  - destruct (f x), (f y); try reflexivity. apply perm_swap.
  - now transitivity (filter f l').
Qed.

Lemma filter_split_perm (f : A -> bool) l :
  Permutation (filter f l ++ filter (fun x => negb (f x)) l) l.
Proof.
  induction l as [|x l IH]; simpl; [constructor|].
  destruct (f x); simpl.
  - now constructor.
  - symmetry. apply Permutation_cons_app. now symmetry.
Qed.

Lemma filter_filter_comm (f g : A -> bool) l :
  filter f (filter g l) = filter g (filter f l).
Proof.
  induction l as [|x l IH]; simpl; [reflexivity|].
  destruct (f x) eqn:Ef, (g x) eqn:Eg; simpl; rewrite ?Ef, ?Eg, IH;
    reflexivity.
Qed.

Lemma filter_implied (f g : A -> bool) l :
  (forall x, In x l -> f x = true -> g x = true) ->
  filter f (filter g l) = filter f l.
Proof.
  induction l as [|x l IH]; simpl; intros H; [reflexivity|].
  destruct (g x) eqn:Eg; simpl.
  - destruct (f x); rewrite IH; auto.
  - destruct (f x) eqn:Ef.
    + rewrite (H x) in Eg; auto. discriminate.
    + apply IH. auto.
Qed.

Lemma filter_all (f : A -> bool) l :
  (forall x, In x l -> f x = true) -> filter f l = l.
Proof.
  induction l as [|x l IH]; simpl; intros H; [reflexivity|].
  rewrite (H x) by auto. f_equal. apply IH. auto.
Qed.

Lemma filter_none (f : A -> bool) l :
  (forall x, In x l -> f x = false) -> filter f l = [].
Proof.
  induction l as [|x l IH]; simpl; intros H; [reflexivity|].
  rewrite (H x) by auto. apply IH. auto.
Qed.

Lemma StronglySorted_filter (R : A -> A -> Prop) (f : A -> bool) l :
  StronglySorted R l -> StronglySorted R (filter f l).
Proof.
  induction 1 as [|x l Hs IH Hx]; simpl; [constructor|].
  destruct (f x); [|exact IH].
  constructor; [exact IH|].
  apply Forall_forall. intros y Hy. apply filter_In in Hy as [Hy _].
  rewrite Forall_forall in Hx. now apply Hx.
Qed.

Lemma StronglySorted_app (R : A -> A -> Prop) l1 l2 :
  StronglySorted R l1 -> StronglySorted R l2 ->
  (forall x y, In x l1 -> In y l2 -> R x y) ->
  StronglySorted R (l1 ++ l2).
Proof.
  induction 1 as [|x l Hs IH Hx]; simpl; intros H2 H; [exact H2|].
  constructor; [apply IH; auto|].
  apply Forall_app. split; [exact Hx|].
  apply Forall_forall. intros y Hy. apply H; auto.
Qed.

Lemma StronglySorted_app_inv (R : A -> A -> Prop) l1 l2 :
  StronglySorted R (l1 ++ l2) ->
  forall x y, In x l1 -> In y l2 -> R x y.
Proof.
  induction l1 as [|a l1 IH]; simpl; intros Hs x y Hx Hy; [tauto|].
  apply StronglySorted_inv in Hs as [Hs Ha].
  destruct Hx as [<-|Hx].
  - rewrite Forall_forall in Ha. apply Ha, in_or_app. now right.
  - now apply IH.
Qed.

Lemma StronglySorted_rev (R : A -> A -> Prop) l :
  StronglySorted R l -> StronglySorted (fun x y => R y x) (rev l).
Proof.
  induction 1 as [|x l Hs IH Hx]; simpl; [constructor|].
  apply StronglySorted_app; [exact IH | repeat constructor |].
  intros a b Ha [<-|[]]. apply in_rev in Ha.
  rewrite Forall_forall in Hx. now apply Hx.
Qed.

Lemma StronglySorted_impl (R Q : A -> A -> Prop) l :
  (forall x y, R x y -> Q x y) ->
  StronglySorted R l -> StronglySorted Q l.
Proof.
  intros H. induction 1 as [|x l Hs IH Hx]; constructor; [exact IH|].
  eapply Forall_impl; [|exact Hx]. auto.
Qed.

Lemma StronglySorted_NoDup (R : A -> A -> Prop) l :
  (forall x, ~ R x x) -> StronglySorted R l -> NoDup l.
Proof.
  intros Hirr. induction 1 as [|x l Hs IH Hx]; constructor; [|exact IH].
  intros Hin. rewrite Forall_forall in Hx. exact (Hirr x (Hx x Hin)).
Qed.

(** A filter that accepts less, and rejects one element the other accepts,
    keeps fewer elements. *)
Lemma filter_length_lt (f g : A -> bool) l w :
  (forall x, f x = true -> g x = true) ->
  In w l -> g w = true -> f w = false ->
  length (filter f l) < length (filter g l).
Proof.
  intros Hfg. induction l as [|x l IH]; simpl; intros Hin Hg Hf; [tauto|].
  assert (Hle : forall l', length (filter f l') <= length (filter g l')).
  { induction l' as [|y l' IH']; simpl; [lia|].
    destruct (f y) eqn:E.
    - rewrite (Hfg y E). simpl. lia.
    - destruct (g y); simpl; lia. }
  destruct Hin as [->|Hin].
  - rewrite Hg, Hf. simpl. specialize (Hle l). lia.
  - specialize (IH Hin Hg Hf).
    destruct (f x) eqn:E.
    + rewrite (Hfg x E). simpl. lia.
    + destruct (g x); simpl; lia.
Qed.

End ListFacts.

(* ================================================================= *)
(** ** The two sorts of the pipeline *)

Lemma date_le_undated c1 c2 : has_date c2 = false -> date_le c1 c2.
Proof.
  unfold has_date, date_le. destruct (Date (row_of c2)); [discriminate|].
  now destruct (Date (row_of c1)).
Qed.

Lemma date_le_dated c1 c2 :
  has_date c1 = true -> has_date c2 = true ->
  (date_key c1 <= date_key c2)%Z -> date_le c1 c2.
Proof.
  unfold has_date, date_le, date_key.
  destruct (Date (row_of c1)), (Date (row_of c2)); try discriminate. auto.
Qed.

Lemma sort_values_Date_perm S df : Permutation (sort_values_Date S df) df.
Proof.
  unfold sort_values_Date. rewrite sort_by_perm. apply filter_split_perm.
Qed.

Lemma sort_values_Date_in S df c : In c (sort_values_Date S df) <-> In c df.
Proof.
  split; apply Permutation_in;
    [|symmetry]; apply sort_values_Date_perm.
Qed.

Lemma sorted_dated_in S df c :
  In c (sort_by S crow date_key (filter has_date df)) ->
  In c df /\ has_date c = true.
Proof.
  intros H. apply (Permutation_in _ (sort_by_perm S crow date_key _)) in H.
  now apply filter_In in H.
Qed.

Lemma undated_sorted l :
  (forall c, In c l -> has_date c = false) -> StronglySorted date_le l.
Proof.
  induction l as [|c l IH]; intros H; constructor.
  - apply IH. intros; apply H; now right.
  - apply Forall_forall. intros y Hy. apply date_le_undated, H. now right.
Qed.

Lemma dated_sorted l :
  (forall c, In c l -> has_date c = true) ->
  StronglySorted (fun x y => date_key x <= date_key y)%Z l ->
  StronglySorted date_le l.
Proof.
  intros H Hs. induction Hs as [|c l Hs IH Hc]; constructor.
  - apply IH. intros; apply H; now right.
  - apply Forall_forall. intros y Hy. rewrite Forall_forall in Hc.
    apply date_le_dated; [apply H; now left | apply H; now right | auto].
Qed.

(** The frame sorted by date is in chronological order, the rows without a
    date last. *)
Lemma sort_values_Date_sorted S df :
  StronglySorted date_le (sort_values_Date S df).
Proof.
  unfold sort_values_Date. apply StronglySorted_app.
  - apply dated_sorted; [|apply sort_by_sorted].
    intros c Hc. now apply sorted_dated_in in Hc.
  - apply undated_sorted. intros c Hc. apply filter_In in Hc as [_ Hc].
    now apply negb_true_iff.
  - intros x y _ Hy. apply date_le_undated.
    apply filter_In in Hy as [_ Hy]. now apply negb_true_iff.
Qed.

Lemma sort_values_desc_perm S (A : Type) (key : A -> Z) l :
  Permutation (sort_values_desc S key l) l.
Proof.
  unfold sort_values_desc.
  rewrite <- Permutation_rev, sort_by_perm. symmetry. apply Permutation_rev.
Qed.

Lemma sort_values_desc_sorted S (A : Type) (key : A -> Z) l :
  StronglySorted (fun x y => key y <= key x)%Z (sort_values_desc S key l).
Proof.
  unfold sort_values_desc.
  apply (StronglySorted_rev (fun x y => key x <= key y)%Z).
  apply sort_by_sorted.
Qed.

(* ================================================================= *)
(** ** The appearance cap keeps the first three rows of every name *)

Lemma limit_appearances_from df : limit_appearances df = limit_from [] df.
Proof. reflexivity. Qed.

Lemma limit_from_cons seen c df :
  limit_from seen (c :: df) =
  if count_name (name_of c) seen + 1 <=? 3
  then c :: limit_from (name_of c :: seen) df
  else limit_from (name_of c :: seen) df.
Proof.
  unfold limit_from. simpl.
  now destruct (count_name (name_of c) seen + 1 <=? 3).
Qed.

Lemma count_name_cons n m seen :
  count_name n (m :: seen) =
  if str_eqb n m then S (count_name n seen) else count_name n seen.
Proof. unfold count_name. simpl. now destruct (str_eqb n m). Qed.

Lemma by_name_cons n c df :
  by_name n (c :: df) =
  if str_eqb n (name_of c) then c :: by_name n df else by_name n df.
Proof. reflexivity. Qed.

Lemma by_name_limit_from n df : forall seen,
  by_name n (limit_from seen df) =
  firstn (3 - count_name n seen) (by_name n df).
Proof.
  induction df as [|c df IH]; intros seen.
  - cbn. now rewrite firstn_nil.
  - rewrite limit_from_cons, (by_name_cons n c df).
    destruct (str_eqb n (name_of c)) eqn:En.
    + apply str_eqb_eq in En. subst n.
      destruct (Nat.leb_spec (count_name (name_of c) seen + 1) 3) as [H|H].
      * rewrite by_name_cons, str_eqb_refl, IH, count_name_cons,
          str_eqb_refl.
        replace (3 - count_name (name_of c) seen)
          with (S (3 - S (count_name (name_of c) seen))) by lia.
        reflexivity.
      * rewrite IH, count_name_cons, str_eqb_refl.
        replace (3 - count_name (name_of c) seen) with 0 by lia.
        replace (3 - S (count_name (name_of c) seen)) with 0 by lia.
        reflexivity.
    + assert (Hc : count_name n (name_of c :: seen) = count_name n seen)
        by now rewrite count_name_cons, En.
      destruct (count_name (name_of c) seen + 1 <=? 3);
        rewrite ?by_name_cons, ?En, IH, Hc; reflexivity.
Qed.

(** After the cap, the rows of a name are its first three rows. *)
Lemma by_name_limit_appearances n df :
  by_name n (limit_appearances df) = firstn 3 (by_name n df).
Proof. apply (by_name_limit_from n df []). Qed.

(** A frame in which no name has more than three rows passes the cap
    unchanged. *)
Lemma limit_from_all df : forall seen,
  (forall n, count_name n seen + length (by_name n df) <= 3) ->
  limit_from seen df = df.
Proof.
  induction df as [|c df IH]; intros seen H; [reflexivity|].
  rewrite limit_from_cons.
  pose proof (H (name_of c)) as Hc.
  rewrite by_name_cons, str_eqb_refl in Hc. simpl in Hc.
  destruct (Nat.leb_spec (count_name (name_of c) seen + 1) 3) as [_|Hgt];
    [|lia].
  f_equal. apply IH. intros n. specialize (H n).
  rewrite by_name_cons in H. rewrite count_name_cons.
  destruct (str_eqb n (name_of c)); simpl in H; lia.
Qed.

Lemma limit_from_incl df : forall seen c,
  In c (limit_from seen df) -> In c df.
Proof.
  induction df as [|d df IH]; intros seen c; [auto|].
  rewrite limit_from_cons.
  destruct (count_name (name_of d) seen + 1 <=? 3); simpl; eauto.
  intros [->|H]; eauto.
Qed.

Lemma limiter_incl S df c : In c (limiter S df) -> In c df.
Proof.
  intros H. apply limit_from_incl in H. now apply sort_values_Date_in in H.
Qed.

Lemma by_name_length_perm n l l' :
  Permutation l l' -> length (by_name n l) = length (by_name n l').
Proof. intros H. apply Permutation_length, filter_perm, H. Qed.

Lemma firstn_incl {A : Type} k (l : list A) x : In x (firstn k l) -> In x l.
Proof.
  intros H. rewrite <- (firstn_skipn k l). apply in_or_app. now left.
Qed.

Lemma skipn_incl {A : Type} k (l : list A) x : In x (skipn k l) -> In x l.
Proof.
  intros H. rewrite <- (firstn_skipn k l). apply in_or_app. now right.
Qed.

(** The rows that the limiter keeps for a name are the first three of that
    name in date order. *)
Lemma by_name_limiter S n df :
  by_name n (limiter S df) = firstn 3 (by_name n (sort_values_Date S df)).
Proof. apply by_name_limit_appearances. Qed.

Lemma limiter_capped S n df : length (by_name n (limiter S df)) <= 3.
Proof. rewrite by_name_limiter, length_firstn. lia. Qed.

(** C8.  The limiter leaves a capped record set as it is: when no name has
    more than three rows, the cap removes nothing (the frame comes back row
    for row), and the limiter, which sorts by date before it caps, returns
    the same rows. *)
Theorem limiter_capped_unchanged (S : sorter) (df : list crow) :
  (forall n, length (by_name n df) <= 3) ->
  limit_appearances df = df /\ Permutation (limiter S df) df.
Proof.
  intros H. split.
  - apply limit_from_all. intros n. cbn. apply H.
  - unfold limiter. rewrite limit_appearances_from, limit_from_all.
    + apply sort_values_Date_perm.
    + intros n. cbn.
      rewrite (by_name_length_perm n _ _ (sort_values_Date_perm S df)).
      apply H.
Qed.

(** Running the limiter on its own output returns that output. *)
Lemma limiter_twice S df :
  Permutation (limiter S (limiter S df)) (limiter S df).
Proof. apply limiter_capped_unchanged. intros n. apply limiter_capped. Qed.

Lemma df_two_capped n : length (by_name n df_two) <= 3.
Proof. etransitivity; [apply filter_length_le | simpl; lia]. Qed.

Lemma limiter_capped_unchanged_witness :
  (forall n, length (by_name n df_two) <= 3)
  /\ limit_appearances df_two = df_two
  /\ Permutation (limiter stable_pandas df_two) df_two.
Proof.
  split; [exact df_two_capped|].
  apply (limiter_capped_unchanged stable_pandas df_two).
  intros n. etransitivity; [apply filter_length_le | simpl; lia].
Defined.

Lemma by_name_sorted_split S n df :
  by_name n (sort_values_Date S df) =
  by_name n (sort_by S crow date_key (filter has_date df))
  ++ by_name n (filter undated df).
Proof. unfold by_name, sort_values_Date. now rewrite filter_app. Qed.

Lemma dated_of_name_length S n df :
  length (by_name n (sort_by S crow date_key (filter has_date df))) =
  length (filter has_date (by_name n df)).
Proof.
  rewrite (by_name_length_perm n _ _ (sort_by_perm S crow date_key _)).
  unfold by_name. now rewrite filter_filter_comm.
Qed.

(** C7.  Rows without a date are ordered as the latest: the frame sorted by
    date is the dated rows followed by the undated ones, so for every name
    the dated rows take the three places first (as many as there are, up to
    three) and the undated rows get only the places that are left. *)
Theorem missing_date_dropped_first (S : sorter) (df : list crow) (n : str) :
  (exists dated_rows undated_rows,
      sort_values_Date S df = dated_rows ++ undated_rows
      /\ Forall (fun c => has_date c = true) dated_rows
      /\ Forall (fun c => has_date c = false) undated_rows)
  /\ length (filter has_date (by_name n (limiter S df))) =
     min 3 (length (filter has_date (by_name n df)))
  /\ length (filter undated (by_name n (limiter S df))) =
     min (3 - length (filter has_date (by_name n df)))
         (length (filter undated (by_name n df))).
Proof.
  assert (HX : forall c,
    In c (by_name n (sort_by S crow date_key (filter has_date df))) ->
    has_date c = true).
  { intros c Hc. apply filter_In in Hc as [Hc _].
    now apply sorted_dated_in in Hc. }
  assert (HY : forall c,
    In c (by_name n (filter undated df)) -> has_date c = false).
  { intros c Hc. apply filter_In in Hc as [Hc _].
    apply filter_In in Hc as [_ Hc]. now apply negb_true_iff. }
  split; [|split].
  - eexists. eexists. split; [reflexivity|]. split; apply Forall_forall.
    + intros c Hc. now apply sorted_dated_in in Hc.
    + intros c Hc. apply filter_In in Hc as [_ Hc]. now apply negb_true_iff.
  - rewrite by_name_limiter, by_name_sorted_split, firstn_app, filter_app.
    rewrite <- dated_of_name_length with (S := S).
    set (X := by_name n (sort_by S crow date_key (filter has_date df))) in *.
    set (Y := by_name n (filter undated df)) in *.
    rewrite (filter_all has_date (firstn 3 X))
      by (intros c Hc; apply HX; eapply firstn_incl, Hc).
    rewrite (filter_none has_date (firstn (3 - length X) Y))
      by (intros c Hc; apply HY; eapply firstn_incl, Hc).
    now rewrite app_nil_r, length_firstn.
  - rewrite by_name_limiter, by_name_sorted_split, firstn_app, filter_app.
    rewrite <- dated_of_name_length with (S := S).
    replace (filter undated (by_name n df)) with (by_name n (filter undated df))
      by apply filter_filter_comm.
    set (X := by_name n (sort_by S crow date_key (filter has_date df))) in *.
    set (Y := by_name n (filter undated df)) in *.
    rewrite (filter_none undated (firstn 3 X)).
    2:{ intros c Hc. unfold undated. apply negb_false_iff, HX.
        eapply firstn_incl, Hc. }
    rewrite (filter_all undated (firstn (3 - length X) Y)).
    2:{ intros c Hc. unfold undated. apply negb_true_iff, HY.
        eapply firstn_incl, Hc. }
    simpl app. now rewrite length_firstn.
Qed.

(* ================================================================= *)
(** ** Aggregation: one row per key, holding the sum of its group *)

Lemma insert_key_in k ks k' :
  In k' (insert_key k ks) <-> k' = k \/ In k' ks.
Proof.
  induction ks as [|a ks IH]; simpl.
  - intuition.
  - destruct (key_compare k a) eqn:E; simpl.
    + apply key_compare_eq in E. subst a. intuition.
    + intuition.
    + rewrite IH. intuition.
Qed.

Lemma insert_key_sorted k ks :
  StronglySorted key_lt ks -> StronglySorted key_lt (insert_key k ks).
Proof.
  induction 1 as [|a ks Hs IH Ha]; simpl.
  - repeat constructor.
  - destruct (key_compare k a) eqn:E.
    + now constructor.
    + constructor; [now constructor|].
      constructor; [exact E|].
      eapply Forall_impl; [|exact Ha].
      intros b Hb. exact (key_compare_lt_trans _ _ _ E Hb).
    + constructor; [exact IH|].
      apply Forall_forall. intros b Hb. apply insert_key_in in Hb.
      destruct Hb as [->|Hb].
      * unfold key_lt. now rewrite key_compare_antisym, E.
      * rewrite Forall_forall in Ha. now apply Ha.
Qed.

Lemma group_keys_in df k :
  In k (group_keys df) <-> exists c, In c df /\ group_key c = Some k.
Proof.
  induction df as [|c df IH]; simpl.
  - split; [tauto | intros [c [[] _]]].
  - destruct (group_key c) as [kc|] eqn:E.
    + rewrite insert_key_in, IH. split.
      * intros [->|[c' [Hc' Hk]]]; eauto.
      * intros [c' [[<-|Hc'] Hk]]; [left; congruence | right; eauto].
    + rewrite IH. split.
      * intros [c' [Hc' Hk]]; eauto.
      * intros [c' [[<-|Hc'] Hk]]; [congruence | eauto].
Qed.

Lemma group_keys_sorted df : StronglySorted key_lt (group_keys df).
Proof.
  induction df as [|c df IH]; simpl; [constructor|].
  destruct (group_key c); [now apply insert_key_sorted | exact IH].
Qed.

Lemma group_keys_NoDup df : NoDup (group_keys df).
Proof.
  apply (StronglySorted_NoDup key_lt); [exact key_lt_irrefl|].
  apply group_keys_sorted.
Qed.

Lemma in_group_iff k c : in_group k c = true <-> group_key c = Some k.
Proof.
  unfold in_group. destruct (group_key c) as [k'|].
  - rewrite key_eqb_eq. split; congruence.
  - split; discriminate.
Qed.

Lemma group_key_name c k : group_key c = Some k -> fst (fst k) = name_of c.
Proof.
  unfold group_key. destruct (Sex (row_of c)), (Division c); try discriminate.
  now intros [= <-].
Qed.

Lemma agg_keys_groupby_sum P df :
  map agg_key (groupby_sum P df) = group_keys df.
Proof. unfold groupby_sum. rewrite map_map. simpl. apply map_id. Qed.

Lemma groupby_sum_in P df x :
  In x (groupby_sum P df) <->
  In (agg_key x) (group_keys df)
  /\ total x = sum_dots P (filter (in_group (agg_key x)) df).
Proof.
  unfold groupby_sum. rewrite in_map_iff. split.
  - intros [k [<- Hk]]. simpl. auto.
  - intros [Hk Ht]. exists (agg_key x). split; [|exact Hk].
    destruct x as [k t]. simpl in *. now subst t.
Qed.

(** The rows of a group all carry the name of the group, so the group can
    be taken among the rows of that name. *)
Lemma in_group_by_name k df :
  filter (in_group k) df = filter (in_group k) (by_name (fst (fst k)) df).
Proof.
  symmetry. apply filter_implied. intros c _ Hc.
  apply in_group_iff, group_key_name in Hc. apply str_eqb_eq. auto.
Qed.

(** Rows that belong to no group can be removed before the aggregation. *)
Lemma groupby_sum_filter P (keep : crow -> bool) df :
  (forall c, In c df -> keep c = false -> group_key c = None) ->
  groupby_sum P (filter keep df) = groupby_sum P df.
Proof.
  intros H.
  assert (Hk : group_keys (filter keep df) = group_keys df).
  { induction df as [|c df IH]; simpl; [reflexivity|].
    destruct (keep c) eqn:E; simpl.
    - rewrite IH; [reflexivity|]. intros c' Hc'. apply H. now right.
    - rewrite (H c (or_introl eq_refl) E). apply IH.
      intros c' Hc'. apply H. now right. }
  unfold groupby_sum. rewrite Hk. apply map_ext. intros k. f_equal. f_equal.
  apply filter_implied. intros c Hc Hg.
  destruct (keep c) eqn:E; [reflexivity|].
  apply in_group_iff in Hg. rewrite (H c Hc E) in Hg. discriminate.
Qed.

(* ================================================================= *)
(** ** The shape of the result *)

Lemma entry_add_rank agg : map entry (add_rank agg) = agg.
Proof. unfold add_rank. rewrite map_map. simpl. apply map_id. Qed.

Lemma process_novice_unfold S df :
  process_novice S df = add_rank (aggregated S df).
Proof. reflexivity. Qed.

Lemma entries_process_novice S df :
  map entry (process_novice S df) = aggregated S df.
Proof. apply entry_add_rank. Qed.

Lemma aggregated_perm S df :
  Permutation (aggregated S df)
    (groupby_sum S (limiter S (with_division df))).
Proof. apply sort_values_desc_perm. Qed.

Lemma entry_in_aggregated S df x :
  In x (process_novice S df) -> In (entry x) (aggregated S df).
Proof.
  intros H. rewrite <- entries_process_novice. now apply in_map.
Qed.

Lemma entry_in_groupby_sum S df x :
  In x (process_novice S df) ->
  In (entry x) (groupby_sum S (limiter S (with_division df))).
Proof.
  intros H. apply (Permutation_in _ (aggregated_perm S df)).
  now apply entry_in_aggregated.
Qed.

Lemma rank_process_novice S df x :
  In x (process_novice S df) -> Rank x = rank_min (aggregated S df) (entry x).
Proof.
  rewrite process_novice_unfold. unfold add_rank. rewrite in_map_iff.
  now intros [a [<- _]].
Qed.

(* ================================================================= *)
(** ** Which appearances are summed *)

Lemma kept_rows_of_name S df n :
  by_name n (limiter S (with_division df)) = earliest3 S df n.
Proof. apply by_name_limiter. Qed.

Lemma rows_of_name_sorted S df n :
  StronglySorted date_le (rows_of_name S df n).
Proof. apply StronglySorted_filter, sort_values_Date_sorted. Qed.

Lemma rows_of_name_perm srt df n :
  Permutation (rows_of_name srt df n) (by_name n (with_division df)).
Proof. apply filter_perm, sort_values_Date_perm. Qed.

Lemma earliest3_before_later S df n c c' :
  In c (earliest3 S df n) -> In c' (later_rows S df n) -> date_le c c'.
Proof.
  apply StronglySorted_app_inv. unfold earliest3, later_rows.
  rewrite firstn_skipn. apply rows_of_name_sorted.
Qed.

(** The kept and the dropped rows of a name are all the rows of the name
    in the input. *)
Lemma earliest3_later_all S df n :
  Permutation (earliest3 S df n ++ later_rows S df n)
    (by_name n (with_division df)).
Proof.
  unfold earliest3, later_rows. rewrite firstn_skipn.
  apply rows_of_name_perm.
Qed.

Lemma earliest3_length S df n :
  length (earliest3 S df n) =
  Nat.min 3 (length (by_name n (with_division df))).
Proof.
  unfold earliest3. rewrite length_firstn.
  now rewrite (Permutation_length (rows_of_name_perm S df n)).
Qed.

Lemma earliest3_all S df n :
  length (by_name n (with_division df)) <= 3 ->
  Permutation (earliest3 S df n) (by_name n (with_division df)).
Proof.
  intros H. unfold earliest3. rewrite firstn_all2.
  - apply rows_of_name_perm.
  - now rewrite (Permutation_length (rows_of_name_perm S df n)).
Qed.

(** The total of an output row is the sum over the kept rows of its
    group, and these are among the three earliest rows of its name. *)
Lemma total_of_entry (S : pandas) df x :
  In x (process_novice S df) ->
  total (entry x) =
  sum_dots S (filter (in_group (agg_key (entry x)))
                (earliest3 S df (agg_name (entry x)))).
Proof.
  intros H. apply entry_in_groupby_sum, groupby_sum_in in H as [_ ->].
  now rewrite in_group_by_name, kept_rows_of_name.
Qed.

(** C1 (as amended).  The cap counts every row of a name, qualifying or
    not.  For every name, the rows of the name that pass the limiter are
    the three earliest of all its rows in date order (a missing date
    counting as the latest): they and the dropped rows are together the
    rows of the name in the input, three are kept when there are three or
    more, every kept row is dated no later than every dropped row, and
    with three rows or fewer in all every row is kept.  The total of an
    output row is the sum, as pandas computes it, of the scores of those of
    the three that belong to the group of the output row, in date
    order. *)
Theorem earliest_three_total (S : pandas) (df : list record) :
  (forall n,
      by_name n (limiter S (with_division df)) = earliest3 S df n
      /\ Permutation (earliest3 S df n ++ later_rows S df n)
           (by_name n (with_division df))
      /\ length (earliest3 S df n) =
         Nat.min 3 (length (by_name n (with_division df)))
      /\ (forall c c',
            In c (earliest3 S df n) -> In c' (later_rows S df n) ->
            date_le c c')
      /\ (length (by_name n (with_division df)) <= 3 ->
          Permutation (earliest3 S df n) (by_name n (with_division df))))
  /\ (forall x, In x (process_novice S df) ->
        total (entry x) =
        sum_dots S (filter (in_group (agg_key (entry x)))
                      (earliest3 S df (agg_name (entry x))))).
Proof.
  split.
  - intros n.
    split; [apply kept_rows_of_name|].
    split; [apply earliest3_later_all|].
    split; [apply earliest3_length|].
    split; [intros c c'; apply earliest3_before_later|].
    apply earliest3_all.
  - intros x. apply total_of_entry.
Qed.

Lemma process_novice_df_four :
  process_novice stable_pandas df_four = [row_A_450].
Proof. vm_compute. reflexivity. Qed.

Lemma earliest_three_total_witness :
  In row_A_450 (process_novice stable_pandas df_four)
  /\ total (entry row_A_450) =
     sum_dots stable_pandas
       (filter (in_group (agg_key (entry row_A_450)))
          (earliest3 stable_pandas df_four (agg_name (entry row_A_450)))).
Proof.
  assert (H : In row_A_450 (process_novice stable_pandas df_four))
    by (vm_compute; left; reflexivity).
  split; [exact H|].
  exact (proj2 (earliest_three_total stable_pandas df_four) row_A_450 H).
Defined.

(** C1 (as stated) fails: [A] has three qualifying rows, whose scores add
    up to 650, and the total of [A] is 350: the row without an age took the
    first of the three places and the row of date 4 was dropped. *)
Lemma three_qualifying_not_all_summed :
  length (filter qualifying
            (by_name (codepoints "A") (with_division df_first_no_age))) = 3
  /\ sum_dots stable_pandas
       (filter qualifying
          (by_name (codepoints "A")
             (with_division df_first_no_age))) = 650%Z
  /\ process_novice stable_pandas df_first_no_age =
     [ mkRanked
         (mkAgg (codepoints "A", codepoints "M", codepoints "Junior Men")
            350%Z) 1 ].
Proof. repeat split; vm_compute; reflexivity. Qed.

(* ================================================================= *)
(** ** One cap per name, shared by the rows of that name *)

Lemma NoDup_map_filter {A B : Type} (f : A -> B) (p : A -> bool) l :
  NoDup (map f l) -> NoDup (map f (filter p l)).
Proof.
  induction l as [|x l IH]; simpl; intros H; [constructor|].
  apply NoDup_cons_iff in H as [Hx Hl].
  destruct (p x); simpl; [|auto].
  constructor; [|auto].
  intros Hin. apply Hx. apply in_map_iff in Hin as [y [Hy Hin]].
  apply filter_In in Hin as [Hin _]. apply in_map_iff. eauto.
Qed.

(** Groups of distinct keys share no row. *)
Lemma groups_disjoint_length ks : NoDup ks -> forall l,
  list_sum (map (fun k => length (filter (in_group k) l)) ks) <= length l.
Proof.
  induction 1 as [|k ks Hk Hnd IH]; intros l; simpl; [lia|].
  rewrite <- (filter_length (in_group k) l).
  apply Nat.add_le_mono_l.
  etransitivity; [|apply (IH (filter (fun c => negb (in_group k c)) l))].
  apply Nat.eq_le_incl. f_equal. apply map_ext_in. intros k' Hk'.
  f_equal. symmetry. apply filter_implied. intros c _ Hc.
  apply negb_true_iff. destruct (in_group k c) eqn:E; [|reflexivity].
  apply in_group_iff in Hc, E. congruence.
Qed.

Lemma out_keys_perm S df :
  Permutation (map out_key (process_novice S df))
    (group_keys (limiter S (with_division df))).
Proof.
  unfold out_key. rewrite <- (map_map entry agg_key).
  rewrite entries_process_novice, <- (agg_keys_groupby_sum S).
  apply Permutation_map, aggregated_perm.
Qed.

Lemma out_keys_NoDup S df : NoDup (map out_key (process_novice S df)).
Proof.
  eapply Permutation_NoDup; [symmetry; apply out_keys_perm|].
  apply group_keys_NoDup.
Qed.

(** The numbers of rows summed in the output rows of one name add up to
    three at most. *)
Lemma contributing_of_name_le (S : pandas) df n :
  list_sum (map (fun x => length (contributing S df x))
              (rows_named n (process_novice S df))) <= 3.
Proof.
  etransitivity; [|apply (limiter_capped S n (with_division df))].
  etransitivity;
    [|apply (groups_disjoint_length
               (map out_key (rows_named n (process_novice S df))))].
  - apply Nat.eq_le_incl. rewrite map_map. f_equal.
    apply map_ext_in. intros x Hx. unfold contributing, out_key.
    apply filter_In in Hx as [_ Hx]. apply str_eqb_eq in Hx.
    rewrite in_group_by_name. unfold agg_name in Hx. now rewrite <- Hx.
  - apply NoDup_map_filter, out_keys_NoDup.
Qed.

(** C10.  The cap is keyed by the name alone.  Of all the rows of a name,
    whatever their sex and division, the limiter keeps the three earliest
    in date order and no more: the kept rows and the dropped rows are
    together the rows of the name in the input, the kept ones number three
    or all of them if fewer, and every kept row is dated no later than
    every dropped row (a missing date counting as the latest).  The
    aggregation gives one output row to every distinct (name, sex,
    division) found among the kept rows, its total being the sum, as pandas
    computes it, of the scores of the kept rows of that group; and the
    numbers of rows summed in the output rows of one name add up to three
    at most, the cap being shared by these rows. *)
Theorem cap_keyed_by_name (S : pandas) (df : list record) (n : str) :
  by_name n (limiter S (with_division df)) = earliest3 S df n
  /\ Permutation (earliest3 S df n ++ later_rows S df n)
       (by_name n (with_division df))
  /\ length (by_name n (limiter S (with_division df))) =
     Nat.min 3 (length (by_name n (with_division df)))
  /\ (forall c c',
        In c (earliest3 S df n) -> In c' (later_rows S df n) ->
        date_le c c')
  /\ NoDup (map out_key (process_novice S df))
  /\ (forall k, In k (map out_key (process_novice S df)) <->
        exists c, In c (limiter S (with_division df))
                  /\ group_key c = Some k)
  /\ (forall x, In x (process_novice S df) ->
        total (entry x) = sum_dots S (contributing S df x))
  /\ list_sum (map (fun x => length (contributing S df x))
                 (rows_named n (process_novice S df))) <= 3.
Proof.
  split; [apply kept_rows_of_name|].
  split; [apply earliest3_later_all|].
  split; [rewrite kept_rows_of_name; apply earliest3_length|].
  split; [intros c c'; apply earliest3_before_later|].
  split; [apply out_keys_NoDup|].
  split.
  { intros k. rewrite <- group_keys_in. split; apply Permutation_in;
      [|symmetry]; apply out_keys_perm. }
  split.
  { intros x Hx. now apply entry_in_groupby_sum, groupby_sum_in in Hx. }
  apply contributing_of_name_le.
Qed.

Lemma cap_keyed_by_name_witness :
  In crow_date1 (earliest3 stable_pandas df_two_divisions (codepoints "A"))
  /\ In crow_date4
       (later_rows stable_pandas df_two_divisions (codepoints "A"))
  /\ date_le crow_date1 crow_date4
  /\ In row_A_junior (process_novice stable_pandas df_two_divisions)
  /\ total (entry row_A_junior) =
     sum_dots stable_pandas
       (contributing stable_pandas df_two_divisions row_A_junior).
Proof.
  assert (H1 : In crow_date1
                 (earliest3 stable_pandas df_two_divisions (codepoints "A")))
    by (vm_compute; left; reflexivity).
  assert (H4 : In crow_date4
                 (later_rows stable_pandas df_two_divisions (codepoints "A")))
    by (vm_compute; left; reflexivity).
  assert (Hx : In row_A_junior (process_novice stable_pandas df_two_divisions))
    by (vm_compute; left; reflexivity).
  pose proof (cap_keyed_by_name stable_pandas df_two_divisions
                (codepoints "A")) as [_ [_ [_ [Hd [_ [_ [Ht _]]]]]]].
  split; [exact H1|]. split; [exact H4|].
  split; [exact (Hd crow_date1 crow_date4 H1 H4)|].
  split; [exact Hx|]. exact (Ht row_A_junior Hx).
Defined.

(** A name found in two divisions has a row in each, and one cap for
    both: the open row holds the third appearance only. *)
Example cap_shared_across_divisions :
  map (fun x => (agg_division (entry x), out_total x))
    (process_novice stable_pandas df_two_divisions) =
  [ (codepoints "Junior Men", 300%Z); (codepoints "Open Men", 150%Z) ].
Proof. vm_compute. reflexivity. Qed.

(* ================================================================= *)
(** ** Rows without an age *)

Lemma group_key_unclassifiable c :
  classifiable c = false -> group_key c = None.
Proof.
  unfold classifiable, group_key.
  destruct (Division c); [discriminate|]. now destruct (Sex (row_of c)).
Qed.

Lemma with_division_in df c :
  In c (with_division df) <-> exists r, In r df /\ c = crow_of r.
Proof.
  unfold with_division. rewrite in_map_iff. split.
  - intros [r [<- Hr]]. exists r. split; [exact Hr | reflexivity].
  - intros [r [Hr ->]]. exists r. split; [reflexivity | exact Hr].
Qed.

Lemma classifiable_has_age df c :
  In c (with_division df) -> classifiable c = has_age c.
Proof.
  intros H. apply with_division_in in H as [r [_ ->]].
  unfold classifiable, has_age, crow_of, assign_division. simpl.
  now destruct (Age r).
Qed.

(** C5 (as amended).  The stages run in the order classify, sort by date,
    limit the appearances, drop the unclassifiable rows (in the grouping),
    aggregate, rank: the cap counts every row of a name, so a row without
    an age can hold one of the three places of its name; when every row
    has an age, nothing is dropped and the pipeline agrees with the order
    classify, drop, limit, aggregate, rank. *)
Theorem stage_order (S : pandas) (df : list record) :
  process_novice S df =
    add_rank
      (sort_values_desc S total
         (groupby_sum S
            (filter classifiable
               (limit_appearances
                  (sort_values_Date S (with_division df))))))
  /\ (forall n,
        by_name n (limit_appearances (sort_values_Date S (with_division df)))
        = firstn 3 (by_name n (sort_values_Date S (with_division df))))
  /\ ((forall r, In r df -> Age r <> None) ->
      process_novice S df = pipeline_spec_order S df).
Proof.
  split; [|split].
  - unfold process_novice. rewrite groupby_sum_filter; [reflexivity|].
    intros c _. apply group_key_unclassifiable.
  - intros n. apply by_name_limit_appearances.
  - intros H. unfold pipeline_spec_order, process_novice, limiter.
    rewrite (filter_all classifiable (with_division df)); [reflexivity|].
    intros c Hc. rewrite (classifiable_has_age df c Hc).
    apply with_division_in in Hc as [r [Hr ->]].
    unfold has_age, crow_of. simpl. specialize (H r Hr).
    now destruct (Age r).
Qed.

Lemma df_four_ages r : In r df_four -> Age r <> None.
Proof.
  unfold df_four. simpl. intros [<-|[<-|[<-|[<-|[]]]]]; discriminate.
Qed.

Lemma stage_order_witness :
  (forall r, In r df_four -> Age r <> None)
  /\ process_novice stable_pandas df_four =
     pipeline_spec_order stable_pandas df_four.
Proof.
  split; [exact df_four_ages|].
  exact (proj2 (proj2 (stage_order stable_pandas df_four)) df_four_ages).
Defined.

(** C5 (as stated) fails: the row without an age is still there after the
    limiter and holds one of the three places of [A], the fourth row is
    dropped, and the total is 250 where the order of the specification gives
    550. *)
Lemma unclassifiable_row_holds_a_place :
  limiter stable_pandas (with_division df_second_no_age) =
    firstn 3 (with_division df_second_no_age)
  /\ nth_error (limiter stable_pandas (with_division df_second_no_age)) 1 =
     Some (mkCrow row_no_age None)
  /\ map (fun x => total (entry x))
       (process_novice stable_pandas df_second_no_age) = [250%Z]
  /\ map (fun x => total (entry x))
       (pipeline_spec_order stable_pandas df_second_no_age) = [550%Z].
Proof. repeat split; vm_compute; reflexivity. Qed.

Lemma group_key_has_age df c k :
  In c (with_division df) -> group_key c = Some k -> has_age c = true.
Proof.
  intros Hc Hk. rewrite <- (classifiable_has_age df c Hc).
  destruct (classifiable c) eqn:E; [reflexivity|].
  rewrite (group_key_unclassifiable c E) in Hk. discriminate.
Qed.

(** C6.  A row without an age gets no division and is left out of the
    aggregation: it belongs to the group of no output row, the result is
    the same when the rows without an age are removed from the capped
    frame, every output row stands for a row of the input that has an age,
    and a name all of whose rows lack the age has no output row. *)
Theorem missing_age_excluded (S : pandas) (df : list record) :
  (forall r, Age r = None -> assign_division r = None)
  /\ (forall r x, In r df -> Age r = None -> In x (process_novice S df) ->
        in_group (out_key x) (crow_of r) = false)
  /\ process_novice S df =
     add_rank
       (sort_values_desc S total
          (groupby_sum S (filter has_age (limiter S (with_division df)))))
  /\ (forall x, In x (process_novice S df) ->
        exists r, In r df /\ Age r <> None
                  /\ group_key (crow_of r) = Some (out_key x))
  /\ (forall n, (forall r, In r df -> Name r = n -> Age r = None) ->
        rows_named n (process_novice S df) = []).
Proof.
  assert (Hrow : forall x, In x (process_novice S df) ->
            exists r, In r df /\ Age r <> None
                      /\ group_key (crow_of r) = Some (out_key x)).
  { intros x Hx.
    apply entry_in_groupby_sum, groupby_sum_in in Hx as [Hx _].
    apply group_keys_in in Hx as [c [Hc Hk]].
    apply limiter_incl in Hc.
    pose proof (group_key_has_age df c _ Hc Hk) as Ha.
    apply with_division_in in Hc as [r [Hr ->]].
    exists r. split; [exact Hr|]. split; [|exact Hk].
    unfold has_age, crow_of in Ha. simpl in Ha. now destruct (Age r). }
  split; [intros r; apply assign_division_None|].
  split.
  { intros r x Hr Ha _. destruct (in_group (out_key x) (crow_of r)) eqn:E;
      [|reflexivity].
    apply in_group_iff in E.
    assert (Hin : In (crow_of r) (with_division df))
      by (apply with_division_in; eauto).
    pose proof (group_key_has_age df _ _ Hin E) as H.
    unfold has_age, crow_of in H. simpl in H. rewrite Ha in H.
    discriminate. }
  split.
  { unfold process_novice. fold (limiter S (with_division df)).
    rewrite groupby_sum_filter; [reflexivity|].
    intros c Hc Ha. apply limiter_incl in Hc.
    destruct (group_key c) as [k|] eqn:E; [|reflexivity].
    rewrite (group_key_has_age df c k Hc E) in Ha. discriminate. }
  split; [exact Hrow|].
  intros n Hn. apply filter_none. intros x Hx.
  destruct (Hrow x Hx) as [r [Hr [Ha Hk]]].
  apply str_eqb_neq. intros E. apply Ha, (Hn r Hr).
  apply group_key_name in Hk. unfold out_key, agg_name in *.
  unfold name_of, crow_of in Hk. simpl in Hk. congruence.
Qed.

(** C4 (as amended).  When the input has rows and none of them survives
    the classification, the pipeline returns the ranked table with no rows:
    an ordinary result, not a separate outcome. *)
Theorem no_classifiable_rows_empty_table (S : pandas) (df : list record) :
  df <> [] -> (forall r, In r df -> Age r = None) ->
  process_novice S df = [].
Proof.
  intros _ H.
  assert (Hk : group_keys (limiter S (with_division df)) = []).
  { destruct (group_keys (limiter S (with_division df))) as [|k ks] eqn:E;
      [reflexivity|].
    assert (Hin : In k (group_keys (limiter S (with_division df))))
      by (rewrite E; now left).
    apply group_keys_in in Hin as [c [Hc Hg]]. apply limiter_incl in Hc.
    pose proof (group_key_has_age df c k Hc Hg) as Ha.
    apply with_division_in in Hc as [r [Hr ->]].
    unfold has_age, crow_of in Ha. simpl in Ha.
    rewrite (H r Hr) in Ha. discriminate. }
  assert (Hagg : aggregated S df = []).
  { apply Permutation_nil. symmetry.
    rewrite aggregated_perm. unfold groupby_sum. now rewrite Hk. }
  rewrite process_novice_unfold, Hagg. reflexivity.
Qed.

Lemma no_classifiable_rows_empty_table_witness :
  df_no_age <> []
  /\ (forall r, In r df_no_age -> Age r = None)
  /\ process_novice reversing_pandas df_no_age = [].
Proof.
  assert (H1 : df_no_age <> []) by discriminate.
  assert (H2 : forall r, In r df_no_age -> Age r = None).
  { intros r [<-|[]]. reflexivity. }
  split; [exact H1|]. split; [exact H2|].
  exact (no_classifiable_rows_empty_table reversing_pandas df_no_age H1 H2).
Defined.

(** C4 (as stated) fails: with one row and no age in it, no row survives
    the classification, and the pipeline returns the empty table, the value
    it returns for any input in which nobody qualifies. *)
Lemma no_qualifier_gives_empty_table :
  with_division df_no_age <> []
  /\ filter classifiable (with_division df_no_age) = []
  /\ process_novice stable_pandas df_no_age = [].
Proof. split; [discriminate|]. split; reflexivity. Qed.

(* ================================================================= *)
(** ** Ranks *)

Lemma count_above_app v l1 l2 :
  count_above v (l1 ++ l2) = count_above v l1 + count_above v l2.
Proof. unfold count_above. now rewrite filter_app, length_app. Qed.

Lemma count_above_all v l :
  (forall w, In w l -> (v < w)%Z) -> count_above v l = length l.
Proof.
  intros H. unfold count_above. rewrite filter_all; [reflexivity|].
  intros w Hw. apply Z.ltb_lt. auto.
Qed.

Lemma count_above_none v l :
  (forall w, In w l -> (w <= v)%Z) -> count_above v l = 0.
Proof.
  intros H. unfold count_above. rewrite filter_none; [reflexivity|].
  intros w Hw. apply Z.ltb_ge. auto.
Qed.

Lemma descending_tail_le v t : descending (v :: t) ->
  forall w, In w (v :: t) -> (w <= v)%Z.
Proof.
  intros H w [<-|Hw]; [lia|].
  apply StronglySorted_inv in H as [_ H]. rewrite Forall_forall in H. auto.
Qed.

Lemma descending_suffix p l : descending (p ++ l) -> descending l.
Proof.
  induction p as [|a p IH]; simpl; [auto|].
  intros H. apply StronglySorted_inv in H as [H _]. auto.
Qed.

(** In a descending list the count of the values above a value is the
    position of the first row of its tie, which is what the convention of
    the specification assigns. *)
Lemma competition_ranks_from_count l : forall p prev,
  descending (p ++ prev :: l) ->
  map (fun v => S (count_above v (p ++ prev :: l))) l =
  competition_ranks_from (S (S (length p))) prev
    (S (count_above prev (p ++ prev :: l))) l.
Proof.
  induction l as [|v t IH]; intros p prev Hd; [reflexivity|].
  assert (Hr : (if (v =? prev)%Z
                then S (count_above prev (p ++ prev :: v :: t))
                else S (S (length p))) =
               S (count_above v (p ++ prev :: v :: t))).
  { destruct (Z.eqb_spec v prev) as [->|Hne]; [reflexivity|].
    f_equal.
    assert (Hvt : forall w, In w (v :: t) -> (w <= v)%Z).
    { apply descending_tail_le.
      apply (descending_suffix (p ++ [prev])).
      now rewrite <- app_assoc. }
    assert (Hpv : (v <= prev)%Z).
    { apply descending_suffix in Hd.
      apply (descending_tail_le _ _ Hd). right. now left. }
    assert (Hp : forall w, In w (p ++ [prev]) -> (v < w)%Z).
    { intros w Hw. apply in_app_or in Hw as [Hw|[<-|[]]]; [|lia].
      pose proof (StronglySorted_app_inv _ _ _ Hd w prev Hw
                    (or_introl eq_refl)) as Hle.
      simpl in Hle. lia. }
    change (p ++ prev :: v :: t) with (p ++ [prev] ++ v :: t).
    rewrite app_assoc, count_above_app, (count_above_all _ _ Hp),
      (count_above_none _ _ Hvt), length_app. simpl. lia. }
  simpl map. simpl competition_ranks_from. rewrite Hr. f_equal.
  specialize (IH (p ++ [prev]) v).
  rewrite <- app_assoc in IH. simpl in IH.
  rewrite IH by exact Hd. rewrite length_app. simpl.
  now rewrite Nat.add_1_r.
Qed.

Lemma competition_ranks_count l :
  descending l ->
  map (fun v => S (count_above v l)) l = competition_ranks l.
Proof.
  destruct l as [|v t]; intros Hd; [reflexivity|].
  pose proof (competition_ranks_from_count t [] v Hd) as H.
  simpl in H. simpl.
  assert (H0 : count_above v (v :: t) = 0)
    by (apply count_above_none, descending_tail_le, Hd).
  rewrite H0 in *. now rewrite H.
Qed.

Lemma StronglySorted_map {A B : Type} (f : A -> B) (R : B -> B -> Prop) l :
  StronglySorted (fun x y => R (f x) (f y)) l -> StronglySorted R (map f l).
Proof.
  induction 1 as [|x l Hs IH Hx]; simpl; constructor; [exact IH|].
  apply Forall_map. exact Hx.
Qed.

Lemma filter_andb {A : Type} (p q : A -> bool) l :
  filter (fun x => p x && q x) l = filter q (filter p l).
Proof.
  induction l as [|x l IH]; simpl; [reflexivity|].
  destruct (p x); simpl; [destruct (q x)|]; now rewrite IH.
Qed.

Lemma filter_map_comm {A B : Type} (f : A -> B) (p : B -> bool) l :
  filter p (map f l) = map f (filter (fun x => p (f x)) l).
Proof.
  induction l as [|x l IH]; simpl; [reflexivity|].
  destruct (p (f x)); simpl; now rewrite IH.
Qed.

Lemma aggregated_sorted S df :
  StronglySorted (fun a b => (total b <= total a)%Z) (aggregated S df).
Proof. apply sort_values_desc_sorted. Qed.

Lemma division_table_add_rank d agg :
  division_table d (add_rank agg) =
  map (fun a => mkRanked a (rank_min agg a)) (division_rows d agg).
Proof. unfold division_table, add_rank. now rewrite filter_map_comm. Qed.

Lemma str_eqb_sym a b : str_eqb a b = str_eqb b a.
Proof.
  unfold str_eqb.
  destruct (list_eq_dec N.eq_dec a b), (list_eq_dec N.eq_dec b a);
    congruence.
Qed.

Lemma rank_min_in_division d agg a :
  agg_division a = d ->
  rank_min agg a = S (count_above (total a) (map total (division_rows d agg))).
Proof.
  intros <-. unfold rank_min, count_above, division_rows, beats. f_equal.
  rewrite filter_andb, filter_map_comm, length_map.
  rewrite (filter_ext (fun x => str_eqb (agg_division x) (agg_division a))
             (fun x => str_eqb (agg_division a) (agg_division x)));
    [reflexivity|].
  intros z. apply str_eqb_sym.
Qed.

Lemma division_table_sorted S df d :
  StronglySorted (fun x y => (out_total y <= out_total x)%Z)
    (division_table d (process_novice S df)).
Proof.
  apply StronglySorted_filter.
  rewrite process_novice_unfold. unfold add_rank.
  apply (StronglySorted_map (fun a => mkRanked a _)
           (fun x y => (out_total y <= out_total x)%Z)).
  apply aggregated_sorted.
Qed.

Lemma division_table_ranks S df d :
  map Rank (division_table d (process_novice S df)) =
  competition_ranks (map out_total (division_table d (process_novice S df))).
Proof.
  rewrite process_novice_unfold, division_table_add_rank, !map_map.
  unfold out_total. simpl.
  rewrite <- competition_ranks_count.
  - rewrite map_map. apply map_ext_in. intros a Ha.
    apply rank_min_in_division.
    apply filter_In in Ha as [_ Ha]. apply str_eqb_eq in Ha. auto.
  - apply StronglySorted_map, StronglySorted_filter, aggregated_sorted.
Qed.

Lemma beats_higher x y z :
  agg_division x = agg_division y -> (total y < total x)%Z ->
  beats x z = true -> beats y z = true.
Proof.
  unfold beats. intros <- Hlt H. apply andb_true_iff in H as [H1 H2].
  apply Z.ltb_lt in H2. rewrite H1. simpl. apply Z.ltb_lt. lia.
Qed.

(** C2.  Within a division a larger total has a smaller rank and equal
    totals have equal ranks; every rank is at least 1; and along the table
    of a division, which is in descending order of total, the ranks are
    those of the minimum-rank convention: rank 1 for the first row, the
    rank of the row above for a tied row, the position in the table for any
    other row. *)
Theorem rank_within_division (S : pandas) (df : list record) :
  (forall x y, In x (process_novice S df) -> In y (process_novice S df) ->
     agg_division (entry x) = agg_division (entry y) ->
     ((out_total y < out_total x)%Z -> Rank x < Rank y)
     /\ (out_total x = out_total y -> Rank x = Rank y))
  /\ (forall x, In x (process_novice S df) -> 1 <= Rank x)
  /\ (forall d,
        StronglySorted (fun x y => (out_total y <= out_total x)%Z)
          (division_table d (process_novice S df)))
  /\ (forall d,
        map Rank (division_table d (process_novice S df)) =
        competition_ranks
          (map out_total (division_table d (process_novice S df)))).
Proof.
  split; [|split; [|split]].
  - intros x y Hx Hy Hd.
    rewrite (rank_process_novice S df x Hx), (rank_process_novice S df y Hy).
    unfold rank_min, out_total. split.
    + intros Hlt. apply -> Nat.succ_lt_mono.
      apply (filter_length_lt _ _ _ (entry x)).
      * intros z. now apply beats_higher.
      * now apply entry_in_aggregated.
      * unfold beats. rewrite Hd, str_eqb_refl. simpl. now apply Z.ltb_lt.
      * unfold beats. rewrite Z.ltb_irrefl. apply andb_false_r.
    + intros He. f_equal. f_equal. apply filter_ext. intros z.
      unfold beats. now rewrite Hd, He.
  - intros x Hx. rewrite (rank_process_novice S df x Hx).
    unfold rank_min. lia.
  - intros d. apply division_table_sorted.
  - intros d. apply division_table_ranks.
Qed.

Lemma process_novice_df_tie :
  process_novice stable_pandas df_tie =
  [ out_row "C" 500 1; out_row "A" 450 2; out_row "B" 450 2 ].
Proof. vm_compute. reflexivity. Qed.

Lemma rank_within_division_witness :
  In (out_row "C" 500 1) (process_novice stable_pandas df_tie)
  /\ In (out_row "A" 450 2) (process_novice stable_pandas df_tie)
  /\ ((out_total (out_row "A" 450 2) < out_total (out_row "C" 500 1))%Z ->
      Rank (out_row "C" 500 1) < Rank (out_row "A" 450 2)).
Proof.
  assert (Hc : In (out_row "C" 500 1) (process_novice stable_pandas df_tie))
    by (vm_compute; left; reflexivity).
  assert (Ha : In (out_row "A" 450 2) (process_novice stable_pandas df_tie))
    by (vm_compute; right; left; reflexivity).
  split; [exact Hc|]. split; [exact Ha|].
  exact (proj1 (proj1 (rank_within_division stable_pandas df_tie)
                  (out_row "C" 500 1) (out_row "A" 450 2) Hc Ha eq_refl)).
Defined.

(* ================================================================= *)
(** ** The order of the rows of equal total *)





(** The sum of an integer column wraps around at 64 bits. *)
Example int64_sum_wraps :
  int64_sum [(2 ^ 62)%Z; (2 ^ 62)%Z] = (- 2 ^ 63)%Z
  /\ int64_sum [100%Z; 200%Z; 150%Z] = 450%Z.
Proof. split; reflexivity. Qed.

(** On the sample frames the default sort and the stable sort give the
    same leaderboard. *)
Example sample_runs_agree :
  Forall (fun df => process_novice numpy_pandas df =
                    process_novice stable_pandas df)
    [ df_four; df_first_no_age; df_second_no_age; df_no_age; df_tie;
      df_two_divisions ].
Proof. repeat (constructor; [vm_compute; reflexivity|]). constructor. Qed.

(* ================================================================= *)
(** ** The divisions and the tabs of the display *)

Lemma group_key_division c k : group_key c = Some k -> Division c = Some (snd k).
Proof.
  unfold group_key. destruct (Sex (row_of c)), (Division c); try discriminate.
  now intros [= <-].
Qed.

Lemma assign_division_in_divisions r d :
  assign_division r = Some d -> In d divisions.
Proof.
  unfold assign_division. destruct (Age r) as [age|]; [|discriminate].
  destruct (Qltb age 24), (Qltb age 40),
    (startswith (upper (strip (sex_text (Sex r)))) (codepoints "M"));
    intros [= <-]; vm_compute; tauto.
Qed.

(** The tabs of the display are exactly the labels that [assign_division]
    can give: each label it returns has a tab, and each tab is the label of
    some row. *)
Theorem divisions_are_the_labels (d : str) :
  In d divisions <-> exists r, assign_division r = Some d.
Proof.
  split.
  - unfold divisions. simpl.
    intros [<-|[<-|[<-|[<-|[<-|[<-|[]]]]]]].
    + now exists (row_of_age_sex 30 "M").
    + now exists (row_of_age_sex 30 "F").
    + now exists (row_of_age_sex 20 "M").
    + now exists (row_of_age_sex 20 "F").
    + now exists (row_of_age_sex 50 "M").
    + now exists (row_of_age_sex 50 "F").
  - intros [r H]. exact (assign_division_in_divisions r d H).
Qed.

Lemma divisions_NoDup : NoDup divisions.
Proof.
  unfold divisions.
  repeat (constructor; [simpl; intuition discriminate|]). constructor.
Qed.

(** Every output row stands for an input row labelled with its division. *)
Lemma out_division_assigned S df x :
  In x (process_novice S df) ->
  exists r, In r df /\ assign_division r = Some (agg_division (entry x)).
Proof.
  intros Hx. apply entry_in_groupby_sum, groupby_sum_in in Hx as [Hx _].
  apply group_keys_in in Hx as [c [Hc Hk]]. apply limiter_incl in Hc.
  apply with_division_in in Hc as [r [Hr ->]].
  exists r. split; [exact Hr|].
  apply group_key_division in Hk. exact Hk.
Qed.

Lemma out_division_in_divisions S df x :
  In x (process_novice S df) -> In (agg_division (entry x)) divisions.
Proof.
  intros Hx. destruct (out_division_assigned S df x Hx) as [r [_ Hr]].
  exact (assign_division_in_divisions r _ Hr).
Qed.

Lemma tab_rows_render_tab df d :
  tab_rows (render_tab df d) = division_table d df.
Proof. unfold render_tab. now destruct (division_table d df). Qed.

(** Splitting a list by the value of a label, over a list of distinct
    labels that holds every label of the list, rearranges the list. *)
Lemma split_by_label_perm {A : Type} (label : A -> str) ds :
  NoDup ds -> forall l,
  (forall x, In x l -> In (label x) ds) ->
  Permutation
    (concat (map (fun d => filter (fun x => str_eqb d (label x)) l) ds)) l.
Proof.
  induction 1 as [|d ds Hd Hnd IH]; intros l Hl.
  - destruct l as [|x l]; [constructor|]. destruct (Hl x (or_introl eq_refl)).
  - simpl.
    etransitivity;
      [|apply (filter_split_perm (fun x => str_eqb d (label x)) l)].
    apply Permutation_app_head.
    etransitivity;
      [|apply (IH (filter (fun x => negb (str_eqb d (label x))) l))].
    + apply Permutation_refl'. f_equal. apply map_ext_in. intros d' Hd'.
      symmetry. apply filter_implied. intros x _ Hx.
      apply negb_true_iff, str_eqb_neq. apply str_eqb_eq in Hx.
      intros ->. subst d'. contradiction.
    + intros x Hx. apply filter_In in Hx as [Hx Hne].
      apply negb_true_iff, str_eqb_neq in Hne.
      destruct (Hl x Hx) as [E|Hin]; [congruence | exact Hin].
Qed.

(** The display loses no row of the leaderboard and shows none twice: the
    rows held by the tabs, taken together, are the rows that
    [process_novice] returns. *)
Theorem render_shows_every_row (S : pandas) (df : list record) :
  Permutation
    (concat (map tab_rows (render_leaderboard (process_novice S df))))
    (process_novice S df).
Proof.
  unfold render_leaderboard. rewrite map_map.
  rewrite (map_ext _ (fun d => division_table d (process_novice S df)))
    by (intros d; apply tab_rows_render_tab).
  apply (split_by_label_perm (fun x => agg_division (entry x)));
    [exact divisions_NoDup|].
  intros x. apply out_division_in_divisions.
Qed.

(** A tab shows the notice instead of a table exactly when no appearance
    that passes the limiter has a sex and the division of the tab. *)
Theorem no_data_iff_no_kept_row (S : pandas) (df : list record) (d : str) :
  render_tab (process_novice S df) d = NoData (codepoints "No data for " ++ d)
  <-> forall c k, In c (limiter S (with_division df)) ->
                  group_key c = Some k -> snd k <> d.
Proof.
  unfold render_tab.
  split.
  - destruct (division_table d (process_novice S df)) as [|x t] eqn:E;
      [|discriminate].
    intros _ c k Hc Hk Hd.
    assert (Hin : In k (map out_key (process_novice S df))).
    { apply (Permutation_in _ (Permutation_sym (out_keys_perm S df))).
      apply group_keys_in. eauto. }
    apply in_map_iff in Hin as [x [Hx Hin]].
    assert (Hx' : In x (division_table d (process_novice S df))).
    { apply filter_In. split; [exact Hin|]. apply str_eqb_eq.
      unfold agg_division. unfold out_key in Hx. now rewrite Hx. }
    rewrite E in Hx'. destruct Hx'.
  - intros H.
    destruct (division_table d (process_novice S df)) as [|x t] eqn:E;
      [reflexivity|].
    exfalso.
    assert (Hx : In x (division_table d (process_novice S df)))
      by (rewrite E; now left).
    apply filter_In in Hx as [Hx Hd]. apply str_eqb_eq in Hd.
    assert (Hk : In (out_key x) (group_keys (limiter S (with_division df)))).
    { apply (Permutation_in _ (out_keys_perm S df)). now apply in_map. }
    apply group_keys_in in Hk as [c [Hc Hk]].
    apply (H c (out_key x) Hc Hk). symmetry. exact Hd.
Qed.

(* ================================================================= *)
(** ** Ranks as the display shows them *)

Lemma StronglySorted_impl_in {A : Type} (R Q : A -> A -> Prop) l :
  (forall x y, In x l -> In y l -> R x y -> Q x y) ->
  StronglySorted R l -> StronglySorted Q l.
Proof.
  intros H Hs. induction Hs as [|x l Hs IH Hx]; constructor.
  - apply IH. intros a b Ha Hb. apply H; now right.
  - rewrite Forall_forall in *. intros y Hy.
    apply H; [now left | now right | now apply Hx].
Qed.

Lemma filter_length_le_impl {A : Type} (f g : A -> bool) l :
  (forall x, f x = true -> g x = true) ->
  length (filter f l) <= length (filter g l).
Proof.
  intros H. induction l as [|x l IH]; simpl; [lia|].
  destruct (f x) eqn:E.
  - rewrite (H x E). simpl. lia.
  - destruct (g x); simpl; lia.
Qed.

Lemma beats_not_lower x y z :
  agg_division x = agg_division y -> (total y <= total x)%Z ->
  beats x z = true -> beats y z = true.
Proof.
  unfold beats. intros <- Hle H. apply andb_true_iff in H as [H1 H2].
  apply Z.ltb_lt in H2. rewrite H1. simpl. apply Z.ltb_lt. lia.
Qed.

(** Within a division, a total that is not smaller has a rank that is not
    larger. *)
Lemma rank_le_of_total_ge S df x y :
  In x (process_novice S df) -> In y (process_novice S df) ->
  agg_division (entry x) = agg_division (entry y) ->
  (out_total y <= out_total x)%Z -> Rank x <= Rank y.
Proof.
  intros Hx Hy Hd Hle.
  rewrite (rank_process_novice S df x Hx), (rank_process_novice S df y Hy).
  unfold rank_min. apply le_n_S, filter_length_le_impl.
  intros z. now apply beats_not_lower.
Qed.

Lemma count_above_nth l i v :
  descending l -> nth_error l i = Some v -> count_above v l <= i.
Proof.
  intros Hd Hn. apply nth_error_split in Hn as [l1 [l2 [-> <-]]].
  rewrite count_above_app.
  rewrite (count_above_none v (v :: l2)).
  - unfold count_above. rewrite Nat.add_0_r. apply filter_length_le.
  - apply descending_tail_le. eapply descending_suffix, Hd.
Qed.

Lemma division_rows_descending S df d :
  descending (map total (division_rows d (aggregated S df))).
Proof.
  apply StronglySorted_map, StronglySorted_filter, aggregated_sorted.
Qed.

Lemma rank_at_position S df d i x :
  nth_error (division_table d (process_novice S df)) i = Some x ->
  Rank x <= i + 1.
Proof.
  rewrite process_novice_unfold, division_table_add_rank, nth_error_map.
  destruct (nth_error (division_rows d (aggregated S df)) i) as [a|] eqn:E;
    [|discriminate].
  intros [= <-]. simpl.
  assert (Ha : agg_division a = d).
  { apply nth_error_In, filter_In in E as [_ E].
    apply str_eqb_eq in E. auto. }
  rewrite (rank_min_in_division d _ a Ha).
  enough (H : count_above (total a)
                (map total (division_rows d (aggregated S df))) <= i) by lia.
  apply count_above_nth; [apply division_rows_descending|].
  rewrite nth_error_map, E. reflexivity.
Qed.

(** In the table of a division, as a tab shows it, the ranks never go down
    from one row to the next, the first row has rank 1, the rank of a row
    is at most its position, and so at most the number of rows of the
    table. *)
Theorem ranks_along_tab (S : pandas) (df : list record) (d : str) :
  StronglySorted (fun x y => Rank x <= Rank y)
    (division_table d (process_novice S df))
  /\ (forall x rest,
        division_table d (process_novice S df) = x :: rest -> Rank x = 1)
  /\ (forall i x,
        nth_error (division_table d (process_novice S df)) i = Some x ->
        Rank x <= i + 1)
  /\ (forall x, In x (division_table d (process_novice S df)) ->
        Rank x <= length (division_table d (process_novice S df))).
Proof.
  split; [|split; [|split]].
  - eapply StronglySorted_impl_in; [|apply division_table_sorted].
    intros x y Hx Hy Hle.
    apply filter_In in Hx as [Hx Hdx], Hy as [Hy Hdy].
    apply str_eqb_eq in Hdx, Hdy.
    apply (rank_le_of_total_ge S df); auto. congruence.
  - intros x rest E.
    pose proof (rank_at_position S df d 0 x) as H. rewrite E in H.
    specialize (H eq_refl).
    assert (Hx : In x (process_novice S df)).
    { assert (Hin : In x (division_table d (process_novice S df)))
        by (rewrite E; now left).
      now apply filter_In in Hin. }
    rewrite (rank_process_novice S df x Hx) in *. unfold rank_min in *. lia.
  - intros i x. apply rank_at_position.
  - intros x Hx. apply In_nth_error in Hx as [i Hi].
    pose proof (rank_at_position S df d i x Hi) as H.
    assert (Hlt : i < length (division_table d (process_novice S df)))
      by (apply nth_error_Some; congruence).
    lia.
Qed.

(** A row has rank 1 exactly when no row of its division has a larger
    total. *)
Theorem rank_one_iff_best (S : pandas) (df : list record) (x : ranked) :
  In x (process_novice S df) ->
  (Rank x = 1 <->
   forall y, In y (process_novice S df) ->
     agg_division (entry y) = agg_division (entry x) ->
     (out_total y <= out_total x)%Z).
Proof.
  intros Hx. rewrite (rank_process_novice S df x Hx). unfold rank_min.
  split.
  - intros H y Hy Hd.
    destruct (Z.le_gt_cases (out_total y) (out_total x)) as [Hle|Hgt];
      [exact Hle|].
    assert (Hin : In (entry y) (filter (beats (entry x)) (aggregated S df))).
    { apply filter_In. split; [now apply entry_in_aggregated|].
      unfold beats. rewrite Hd, str_eqb_refl. simpl. now apply Z.ltb_lt. }
    destruct (filter (beats (entry x)) (aggregated S df));
      [destruct Hin | discriminate].
  - intros H. rewrite filter_none; [reflexivity|].
    intros z Hz. rewrite <- entries_process_novice in Hz.
    apply in_map_iff in Hz as [y [<- Hy]].
    unfold beats. destruct (str_eqb_eq (agg_division (entry y))
                              (agg_division (entry x))) as [_ Heq].
    destruct (str_eqb (agg_division (entry y)) (agg_division (entry x)))
      eqn:E; [|reflexivity].
    apply str_eqb_eq in E. specialize (H y Hy E). simpl.
    apply Z.ltb_ge. exact H.
Qed.

Lemma rank_one_iff_best_witness :
  In (out_row "C" 500 1) (process_novice stable_pandas df_tie)
  /\ (Rank (out_row "C" 500 1) = 1 <->
      forall y, In y (process_novice stable_pandas df_tie) ->
        agg_division (entry y) = agg_division (entry (out_row "C" 500 1)) ->
        (out_total y <= out_total (out_row "C" 500 1))%Z).
Proof.
  assert (H : In (out_row "C" 500 1) (process_novice stable_pandas df_tie))
    by (vm_compute; left; reflexivity).
  split; [exact H|].
  exact (rank_one_iff_best stable_pandas df_tie (out_row "C" 500 1) H).
Defined.

(* ================================================================= *)
(** ** What the aggregation conserves *)

(** Two filters that accept no common element share the list between
    them. *)
Lemma filter_orb_perm {A : Type} (p q : A -> bool) l :
  (forall c, In c l -> p c = true -> q c = false) ->
  Permutation (filter p l ++ filter q l) (filter (fun c => p c || q c) l).
Proof.
  induction l as [|c l IH]; intros H; [constructor|].
  assert (IH' := IH (fun c' Hc' => H c' (or_intror Hc'))).
  simpl. destruct (p c) eqn:Ep.
  - rewrite (H c (or_introl eq_refl) Ep). simpl. now constructor.
  - simpl. destruct (q c); [|exact IH'].
    symmetry. apply Permutation_cons_app. now symmetry.
Qed.

Lemma concat_map_perm {A B : Type} (g : A -> list B) ks ks' :
  Permutation ks ks' -> Permutation (concat (map g ks)) (concat (map g ks')).
Proof.
  induction 1 as [|k ks ks' _ IH|k k' ks|ks1 ks2 ks3 _ IH1 _ IH2]; simpl.
  - constructor.
  - now apply Permutation_app_head.
  - rewrite !app_assoc. apply Permutation_app_tail, Permutation_app_comm.
  - now transitivity (concat (map g ks2)).
Qed.

(** The groups of distinct keys split the rows that belong to one of
    them. *)
Lemma groups_partition ks : NoDup ks -> forall l,
  Permutation (concat (map (fun k => filter (in_group k) l) ks))
    (filter (in_groups ks) l).
Proof.
  induction 1 as [|k ks Hk Hnd IH]; intros l.
  - simpl. now rewrite filter_none.
  - simpl. rewrite IH.
    change (filter (in_groups (k :: ks)) l)
      with (filter (fun c => in_group k c || in_groups ks c) l).
    apply filter_orb_perm.
    intros c _ Hc. apply in_group_iff in Hc.
    unfold in_groups.
    destruct (existsb (fun k' => in_group k' c) ks) eqn:E; [|reflexivity].
    apply existsb_exists in E as [k' [Hk' E]].
    apply in_group_iff in E. congruence.
Qed.

Lemma in_groups_group_keys l c :
  In c l -> in_groups (group_keys l) c = has_group c.
Proof.
  intros Hc. unfold in_groups, has_group.
  destruct (group_key c) as [k|] eqn:E.
  - apply existsb_exists. exists k. split.
    + apply group_keys_in. eauto.
    + now apply in_group_iff.
  - destruct (existsb (fun k => in_group k c) (group_keys l)) eqn:Ex;
      [|reflexivity].
    apply existsb_exists in Ex as [k [_ Hk]].
    apply in_group_iff in Hk. congruence.
Qed.

(** The aggregation neither loses an appearance nor counts one twice: the
    lists of rows summed in the output rows, taken together, are the rows
    that pass the limiter and have a sex and a division, each once; and the
    total of an output row is the sum, as pandas computes it, of the scores
    of its list. *)
Theorem every_kept_row_summed_once (S : pandas) (df : list record) :
  Permutation
    (concat (map (contributing S df) (process_novice S df)))
    (filter has_group (limiter S (with_division df)))
  /\ (forall x, In x (process_novice S df) ->
        total (entry x) = sum_dots S (contributing S df x)).
Proof.
  split.
  - unfold contributing.
    change (map (fun x => filter (in_group (agg_key (entry x)))
                            (limiter S (with_division df)))
              (process_novice S df))
      with (map (fun x => (fun k => filter (in_group k)
                                      (limiter S (with_division df)))
                            (out_key x))
              (process_novice S df)).
    rewrite <- (map_map out_key).
    rewrite (concat_map_perm _ _ _ (out_keys_perm S df)).
    rewrite (groups_partition _ (group_keys_NoDup _)).
    apply Permutation_refl'. apply filter_ext_in. intros c Hc.
    now apply in_groups_group_keys.
  - intros x Hx. now apply entry_in_groupby_sum, groupby_sum_in in Hx.
Qed.

(* ================================================================= *)
(** ** The size of the leaderboard *)

Lemma insert_key_length k ks : length (insert_key k ks) <= S (length ks).
Proof.
  induction ks as [|a ks IH]; simpl; [lia|].
  destruct (key_compare k a); simpl; lia.
Qed.

Lemma group_keys_length l : length (group_keys l) <= length l.
Proof.
  induction l as [|c l IH]; simpl; [lia|].
  destruct (group_key c); [|lia].
  pose proof (insert_key_length k (group_keys l)). lia.
Qed.

Lemma limit_from_length df : forall seen,
  length (limit_from seen df) <= length df.
Proof.
  induction df as [|c df IH]; intros seen; [reflexivity|].
  rewrite limit_from_cons. specialize (IH (name_of c :: seen)).
  destruct (count_name (name_of c) seen + 1 <=? 3); simpl; lia.
Qed.

Lemma limiter_length srt df : length (limiter srt df) <= length df.
Proof.
  unfold limiter. rewrite limit_appearances_from.
  etransitivity; [apply limit_from_length|].
  now rewrite (Permutation_length (sort_values_Date_perm srt df)).
Qed.

Lemma length_le_list_sum {A : Type} (f : A -> nat) l :
  (forall x, In x l -> 1 <= f x) -> length l <= list_sum (map f l).
Proof.
  induction l as [|x l IH]; intros H; simpl; [lia|].
  specialize (H x (or_introl eq_refl)) as Hx.
  assert (IH' := IH (fun y Hy => H y (or_intror Hy))). lia.
Qed.

(** An output row sums at least one kept row. *)
Lemma contributing_nonempty srt df x :
  In x (process_novice srt df) -> 1 <= length (contributing srt df x).
Proof.
  intros Hx. apply entry_in_groupby_sum, groupby_sum_in in Hx as [Hx _].
  apply group_keys_in in Hx as [c [Hc Hk]].
  assert (Hin : In c (contributing srt df x)).
  { apply filter_In. split; [exact Hc|]. now apply in_group_iff. }
  destruct (contributing srt df x); [destruct Hin | simpl; lia].
Qed.

(** The leaderboard has at most three rows for one name, whatever the
    sexes and divisions the name comes with, and no more rows than the
    input. *)
Theorem leaderboard_size (srt : pandas) (df : list record) :
  (forall n, length (rows_named n (process_novice srt df)) <= 3)
  /\ length (process_novice srt df) <= length df.
Proof.
  split.
  - intros n.
    etransitivity; [|apply (contributing_of_name_le srt df n)].
    apply length_le_list_sum. intros x Hx.
    apply filter_In in Hx as [Hx _]. now apply contributing_nonempty.
  - rewrite <- (length_map out_key).
    rewrite (Permutation_length (out_keys_perm srt df)).
    etransitivity; [apply group_keys_length|].
    etransitivity; [apply limiter_length|].
    unfold with_division. now rewrite length_map.
Qed.

(* ================================================================= *)
(** ** Rows without a sex *)

Lemma group_key_no_sex c : has_sex c = false -> group_key c = None.
Proof.
  unfold has_sex, group_key. now destruct (Sex (row_of c)).
Qed.

(** A row without a sex is labelled with the Women bucket of its age band
    by [assign_division], and yet it reaches no row of the leaderboard: the
    grouping drops it, as it drops a row without a division; like that row
    it still takes a place under the cap when it is among the three
    earliest of its name. *)
Theorem missing_sex_excluded (srt : pandas) (df : list record) :
  (forall r age, Sex r = None -> Age r = Some age ->
     exists band, assign_division r = Some (band ++ space ++ Women))
  /\ (forall r x, Sex r = None -> in_group (out_key x) (crow_of r) = false)
  /\ process_novice srt df =
     add_rank
       (sort_values_desc srt total
          (groupby_sum srt
             (filter has_sex (limiter srt (with_division df)))))
  /\ (forall c, In c (earliest3 srt df (name_of c)) ->
        In c (limiter srt (with_division df))).
Proof.
  split; [|split; [|split]].
  - intros r age Hs Ha. unfold assign_division. rewrite Ha, Hs.
    eexists. reflexivity.
  - intros r x Hs.
    destruct (in_group (out_key x) (crow_of r)) eqn:E; [|reflexivity].
    apply in_group_iff in E.
    rewrite group_key_no_sex in E; [discriminate|].
    unfold has_sex, crow_of. simpl. now rewrite Hs.
  - unfold process_novice. fold (limiter srt (with_division df)).
    rewrite groupby_sum_filter; [reflexivity|].
    intros c _. apply group_key_no_sex.
  - intros c Hc. rewrite <- kept_rows_of_name in Hc.
    now apply filter_In in Hc.
Qed.

(* ================================================================= *)
(** ** The numbering of the appearances and the capped frame *)

Lemma numbering_from n df : forall seen,
  map snd
    (filter (fun p => str_eqb n (name_of (fst p)))
       (combine df (map (fun k => k + 1) (cumcount_from seen df)))) =
  seq (count_name n seen + 1) (length (by_name n df)).
Proof.
  induction df as [|c df IH]; intros seen; [reflexivity|].
  cbn [cumcount_from map combine filter fst]. rewrite by_name_cons.
  destruct (str_eqb n (name_of c)) eqn:E.
  - apply str_eqb_eq in E. subst n.
    cbn [map snd length seq]. f_equal.
    rewrite IH, count_name_cons, str_eqb_refl. reflexivity.
  - rewrite IH, count_name_cons, E. reflexivity.
Qed.

(** The [Appearances] column numbers the rows of each name 1, 2, 3 and so
    on, in the order of the frame. *)
Theorem appearances_number_each_name (df : list crow) (n : str) :
  map snd
    (filter (fun p => str_eqb n (name_of (fst p)))
       (combine df (Appearances df))) =
  seq 1 (length (by_name n df)).
Proof. apply (numbering_from n df []). Qed.

Lemma limit_from_sorted (R : crow -> crow -> Prop) df : forall seen,
  StronglySorted R df -> StronglySorted R (limit_from seen df).
Proof.
  induction df as [|c df IH]; intros seen Hs; [constructor|].
  apply StronglySorted_inv in Hs as [Hs Hc].
  rewrite limit_from_cons.
  destruct (count_name (name_of c) seen + 1 <=? 3); [|now apply IH].
  constructor; [now apply IH|].
  rewrite Forall_forall in *. intros y Hy. apply Hc.
  now apply limit_from_incl in Hy.
Qed.

Lemma limiter_sorted srt df : StronglySorted date_le (limiter srt df).
Proof. apply limit_from_sorted, sort_values_Date_sorted. Qed.

(** The frame that leaves the limiter is in chronological order, the rows
    without a date last; it holds rows of the input only; and it holds
    every row of a name that has three rows or fewer. *)
Theorem limiter_chronological (srt : sorter) (df : list crow) :
  StronglySorted date_le (limiter srt df)
  /\ (forall c, In c (limiter srt df) -> In c df)
  /\ (forall c, In c df -> length (by_name (name_of c) df) <= 3 ->
        In c (limiter srt df)).
Proof.
  split; [apply limiter_sorted|].
  split; [intros c; apply limiter_incl|].
  intros c Hc Hlen.
  assert (Hin : In c (by_name (name_of c) (limiter srt df))).
  { rewrite by_name_limiter, firstn_all2.
    - apply filter_In. split; [now apply sort_values_Date_in|].
      apply str_eqb_refl.
    - now rewrite (by_name_length_perm _ _ _ (sort_values_Date_perm srt df)). }
  now apply filter_In in Hin.
Qed.

Lemma date_le_key c1 c2 :
  has_date c1 = true -> has_date c2 = true -> date_le c1 c2 ->
  (date_key c1 <= date_key c2)%Z.
Proof.
  unfold has_date, date_le, date_key.
  destruct (Date (row_of c1)), (Date (row_of c2)); try discriminate. auto.
Qed.

(* ================================================================= *)
(** ** When the leaderboard does not depend on the sort *)

(** Two lists in strict order that hold the same elements are equal. *)
Lemma strictly_sorted_unique {A : Type} (lt : A -> A -> Prop) :
  (forall x, ~ lt x x) -> (forall x y z, lt x y -> lt y z -> lt x z) ->
  forall l1 l2, StronglySorted lt l1 -> StronglySorted lt l2 ->
  (forall x, In x l1 <-> In x l2) -> l1 = l2.
Proof.
  intros Hirr Htr. induction l1 as [|a l1 IH]; intros [|b l2] H1 H2 H.
  - reflexivity.
  - destruct (proj2 (H b) (or_introl eq_refl)).
  - destruct (proj1 (H a) (or_introl eq_refl)).
  - apply StronglySorted_inv in H1 as [H1 Ha], H2 as [H2 Hb].
    rewrite Forall_forall in Ha, Hb.
    assert (E : a = b).
    { destruct (proj1 (H a) (or_introl eq_refl)) as [E|Hin]; [auto|].
      destruct (proj2 (H b) (or_introl eq_refl)) as [E|Hin']; [auto|].
      exfalso. apply (Hirr a). eapply Htr; [apply Ha, Hin' | apply Hb, Hin]. }
    subst b. f_equal. apply IH; auto.
    intros x. split; intros Hx.
    + destruct (proj1 (H x) (or_intror Hx)) as [<-|Hin]; [|exact Hin].
      destruct (Hirr a (Ha a Hx)).
    + destruct (proj2 (H x) (or_intror Hx)) as [<-|Hin]; [|exact Hin].
      destruct (Hirr a (Hb a Hx)).
Qed.

Lemma sorted_distinct_strict {A : Type} (key : A -> Z) l :
  StronglySorted (fun x y => (key x <= key y)%Z) l -> NoDup (map key l) ->
  StronglySorted (fun x y => (key x < key y)%Z) l.
Proof.
  induction 1 as [|x l Hs IH Hx]; simpl; intros Hnd; [constructor|].
  apply NoDup_cons_iff in Hnd as [Hn Hnd].
  constructor; [auto|].
  rewrite Forall_forall in *. intros y Hy.
  specialize (Hx y Hy).
  assert (key x <> key y) by (intros E; apply Hn; rewrite E; now apply in_map).
  lia.
Qed.

Lemma with_division_dated df :
  (forall r, In r df -> Date r <> None) ->
  forall c, In c (with_division df) -> has_date c = true.
Proof.
  intros H c Hc. apply with_division_in in Hc as [r [Hr ->]].
  specialize (H r Hr). unfold has_date, crow_of. simpl.
  now destruct (Date r).
Qed.

Lemma distinct_dates_of_name df n :
  distinct_appearances df ->
  NoDup (map date_key (by_name n (with_division df))).
Proof.
  intros [Hnd Hd]. induction df as [|r df IH]; [constructor|].
  simpl in Hnd. apply NoDup_cons_iff in Hnd as [Hr Hnd].
  assert (IH' := IH Hnd (fun r' Hr' => Hd r' (or_intror Hr'))).
  cbn [with_division map]. rewrite by_name_cons.
  destruct (str_eqb n (name_of (mkCrow r (assign_division r)))) eqn:E;
    [|exact IH'].
  simpl. constructor; [|exact IH'].
  intros Hin. apply Hr.
  apply in_map_iff in Hin as [c [Hk Hc]].
  apply filter_In in Hc as [Hc Hn].
  apply with_division_in in Hc as [r' [Hr' ->]].
  apply str_eqb_eq in E, Hn. unfold name_of, crow_of in *. simpl in *.
  apply in_map_iff. exists r'. split; [|exact Hr'].
  unfold date_key, crow_of in Hk. simpl in Hk.
  pose proof (Hd r (or_introl eq_refl)) as D1.
  pose proof (Hd r' (or_intror Hr')) as D2.
  destruct (Date r), (Date r'); try congruence.
Qed.

(** With dated rows and distinct dates within a name, the rows of a name in
    date order are the same whatever the sort and the order of the
    input. *)
Lemma rows_of_name_unique S1 S2 df df' n :
  distinct_appearances df -> Permutation df df' ->
  rows_of_name S1 df n = rows_of_name S2 df' n.
Proof.
  intros Hd Hp.
  assert (HW : Permutation (with_division df) (with_division df'))
    by now apply Permutation_map.
  assert (P1 : Permutation (rows_of_name S1 df n)
                 (by_name n (with_division df)))
    by apply filter_perm, sort_values_Date_perm.
  assert (P2 : Permutation (rows_of_name S2 df' n)
                 (by_name n (with_division df))).
  { transitivity (by_name n (with_division df')).
    - apply filter_perm, sort_values_Date_perm.
    - symmetry. now apply filter_perm. }
  assert (Hdated : forall S0 d0 c,
            Permutation (rows_of_name S0 d0 n) (by_name n (with_division df))
            -> In c (rows_of_name S0 d0 n) -> has_date c = true).
  { intros S0 d0 c P Hc. apply (Permutation_in _ P) in Hc.
    apply filter_In in Hc as [Hc _].
    exact (with_division_dated df (proj2 Hd) c Hc). }
  assert (Hstrict : forall S0 d0,
            Permutation (rows_of_name S0 d0 n) (by_name n (with_division df))
            -> StronglySorted (fun x y => (date_key x < date_key y)%Z)
                 (rows_of_name S0 d0 n)).
  { intros S0 d0 P. apply sorted_distinct_strict.
    - eapply StronglySorted_impl_in; [|apply rows_of_name_sorted].
      intros x y Hx Hy. apply date_le_key; eapply Hdated; eauto.
    - eapply Permutation_NoDup;
        [symmetry; apply Permutation_map, P|].
      now apply distinct_dates_of_name. }
  apply (strictly_sorted_unique (fun x y => (date_key x < date_key y)%Z)).
  - intros x. lia.
  - intros x y z. lia.
  - now apply Hstrict.
  - now apply Hstrict.
  - intros c. split; apply Permutation_in.
    + transitivity (by_name n (with_division df)); [exact P1 | now symmetry].
    + transitivity (by_name n (with_division df)); [exact P2 | now symmetry].
Qed.

Lemma in_by_name_self l c : In c l <-> In c (by_name (name_of c) l).
Proof.
  unfold by_name. rewrite filter_In. split; [|tauto].
  intros H. split; [exact H | apply str_eqb_refl].
Qed.

(** The aggregation looks at the frame name by name. *)
Lemma groupby_sum_by_name P l1 l2 :
  (forall n, by_name n l1 = by_name n l2) ->
  groupby_sum P l1 = groupby_sum P l2.
Proof.
  intros H.
  assert (Hin : forall c, In c l1 <-> In c l2).
  { intros c. rewrite (in_by_name_self l1), (in_by_name_self l2).
    now rewrite H. }
  assert (Hk : group_keys l1 = group_keys l2).
  { apply (strictly_sorted_unique key_lt).
    - exact key_lt_irrefl.
    - exact key_compare_lt_trans.
    - apply group_keys_sorted.
    - apply group_keys_sorted.
    - intros k. rewrite !group_keys_in. split; intros [c [Hc Hg]];
        exists c; (split; [now apply Hin | exact Hg]). }
  unfold groupby_sum. rewrite Hk. apply map_ext. intros k.
  now rewrite (in_group_by_name k l1), (in_group_by_name k l2), H.
Qed.

(** The aggregation uses the sum of the kernels only. *)
Lemma groupby_sum_same_sum (P Q : pandas) df :
  group_sum P = group_sum Q -> groupby_sum P df = groupby_sum Q df.
Proof. unfold groupby_sum, sum_dots. now intros ->. Qed.

Lemma rank_min_perm agg agg' a :
  Permutation agg agg' -> rank_min agg a = rank_min agg' a.
Proof.
  intros H. unfold rank_min. f_equal.
  apply Permutation_length, filter_perm, H.
Qed.

Lemma add_rank_perm agg agg' :
  Permutation agg agg' -> Permutation (add_rank agg) (add_rank agg').
Proof.
  intros H. unfold add_rank.
  rewrite (map_ext _ (fun x => mkRanked x (rank_min agg' x)))
    by (intros a; now rewrite (rank_min_perm agg agg' a H)).
  now apply Permutation_map.
Qed.

(** When every row has a date and no lifter has two rows on one date, the
    leaderboard does not depend on the sort nor on the order of the rows of
    the input: two runs return the same ranked rows, up to the order in
    which rows of equal total are listed. *)
Theorem leaderboard_order_independent (S1 S2 : sorter)
    (sum : list Z -> Z) (df df' : list record) :
  distinct_appearances df -> Permutation df df' ->
  Permutation (process_novice (mkPandas S1 sum) df)
    (process_novice (mkPandas S2 sum) df').
Proof.
  intros Hd Hp. rewrite !process_novice_unfold. apply add_rank_perm.
  transitivity (groupby_sum (mkPandas S1 sum)
                  (limiter S1 (with_division df)));
    [apply (aggregated_perm (mkPandas S1 sum))|].
  transitivity (groupby_sum (mkPandas S2 sum)
                  (limiter S2 (with_division df')));
    [|symmetry; apply (aggregated_perm (mkPandas S2 sum))].
  enough (E : groupby_sum (mkPandas S1 sum) (limiter S1 (with_division df))
              = groupby_sum (mkPandas S2 sum)
                  (limiter S2 (with_division df')))
    by (rewrite E; reflexivity).
  rewrite (groupby_sum_same_sum (mkPandas S2 sum) (mkPandas S1 sum) _
             eq_refl).
  apply groupby_sum_by_name. intros n.
  rewrite !kept_rows_of_name. unfold earliest3.
  now rewrite (rows_of_name_unique S1 S2 df df' n Hd Hp).
Qed.

Lemma df_four_distinct : distinct_appearances df_four.
Proof.
  split.
  - unfold df_four. simpl.
    repeat (constructor; [simpl; intuition discriminate|]). constructor.
  - unfold df_four. simpl. intros r [<-|[<-|[<-|[<-|[]]]]]; discriminate.
Qed.

Lemma leaderboard_order_independent_witness :
  distinct_appearances df_four
  /\ Permutation df_four (rev df_four)
  /\ Permutation (process_novice stable_pandas df_four)
       (process_novice reversing_pandas (rev df_four)).
Proof.
  split; [exact df_four_distinct|].
  split; [apply Permutation_rev|].
  exact (leaderboard_order_independent stable_sorter reversing_sorter
           int64_sum df_four (rev df_four) df_four_distinct
           (Permutation_rev df_four)).
Defined.

(* ================================================================= *)
(** ** An appearance after the third *)

Lemma rows_of_name_strict srt df n :
  distinct_appearances df ->
  StronglySorted (fun x y => (date_key x < date_key y)%Z)
    (rows_of_name srt df n).
Proof.
  intros Hd. apply sorted_distinct_strict.
  - eapply StronglySorted_impl_in; [|apply rows_of_name_sorted].
    intros x y Hx Hy.
    apply (Permutation_in _ (rows_of_name_perm srt df n)) in Hx, Hy.
    apply filter_In in Hx as [Hx _], Hy as [Hy _].
    apply date_le_key; now apply (with_division_dated df (proj2 Hd)).
  - eapply Permutation_NoDup;
      [symmetry; apply Permutation_map, rows_of_name_perm|].
    now apply distinct_dates_of_name.
Qed.

Lemma distinct_appearances_tail r df :
  distinct_appearances (r :: df) -> distinct_appearances df.
Proof.
  intros [Hnd Hd]. split.
  - simpl in Hnd. now apply NoDup_cons_iff in Hnd.
  - intros r' Hr'. apply Hd. now right.
Qed.

(** The rows of a name in date order when a row dated after all the rows
    of its name is added to the input: the new row comes last under its
    name, and the other names are as they were. *)
Lemma rows_of_name_later S1 S2 df r d m :
  distinct_appearances (r :: df) -> Date r = Some d ->
  (forall c, In c (by_name (Name r) (with_division df)) ->
     (date_key c < d)%Z) ->
  rows_of_name S1 (r :: df) m =
  rows_of_name S2 df m
  ++ (if str_eqb m (Name r) then [crow_of r] else []).
Proof.
  intros Hd Hr Hlt.
  apply (strictly_sorted_unique (fun x y => (date_key x < date_key y)%Z)).
  - intros x. lia.
  - intros x y z. lia.
  - now apply rows_of_name_strict.
  - apply StronglySorted_app.
    + apply rows_of_name_strict. now apply distinct_appearances_tail in Hd.
    + destruct (str_eqb m (Name r)); repeat constructor.
    + intros x y Hx Hy.
      destruct (str_eqb m (Name r)) eqn:E; [|destruct Hy].
      destruct Hy as [<-|[]]. apply str_eqb_eq in E. subst m.
      apply (Permutation_in _ (rows_of_name_perm S2 df (Name r))) in Hx.
      specialize (Hlt x Hx). unfold date_key at 2, crow_of. simpl.
      now rewrite Hr.
  - intros c.
    assert (H1 : In c (rows_of_name S1 (r :: df) m) <->
                 In c (by_name m (with_division (r :: df)))).
    { split; apply Permutation_in;
        [|symmetry]; apply rows_of_name_perm. }
    assert (H2 : In c (rows_of_name S2 df m) <->
                 In c (by_name m (with_division df))).
    { split; apply Permutation_in;
        [|symmetry]; apply rows_of_name_perm. }
    rewrite H1, in_app_iff, H2.
    cbn [with_division map]. rewrite by_name_cons.
    change (name_of (mkCrow r (assign_division r))) with (Name r).
    change (mkCrow r (assign_division r)) with (crow_of r).
    destruct (str_eqb m (Name r)); simpl; tauto.
Qed.

(** Once a lifter has three dated appearances, an appearance dated after
    all of them changes nothing: with distinct dates, the leaderboard with
    the new row in the input has the same ranked rows as without it. *)
Theorem later_appearance_ignored (S1 S2 : sorter) (sum : list Z -> Z)
    (df : list record) (r : record) (d : Z) :
  distinct_appearances (r :: df) -> Date r = Some d ->
  (forall c, In c (by_name (Name r) (with_division df)) ->
     (date_key c < d)%Z) ->
  3 <= length (by_name (Name r) (with_division df)) ->
  Permutation (process_novice (mkPandas S1 sum) (r :: df))
    (process_novice (mkPandas S2 sum) df).
Proof.
  intros Hd Hr Hlt Hlen. rewrite !process_novice_unfold.
  apply add_rank_perm.
  transitivity (groupby_sum (mkPandas S1 sum)
                  (limiter S1 (with_division (r :: df))));
    [apply (aggregated_perm (mkPandas S1 sum))|].
  transitivity (groupby_sum (mkPandas S2 sum)
                  (limiter S2 (with_division df)));
    [|symmetry; apply (aggregated_perm (mkPandas S2 sum))].
  enough (E : groupby_sum (mkPandas S1 sum)
                (limiter S1 (with_division (r :: df)))
              = groupby_sum (mkPandas S2 sum)
                  (limiter S2 (with_division df)))
    by (rewrite E; reflexivity).
  rewrite (groupby_sum_same_sum (mkPandas S2 sum) (mkPandas S1 sum) _
             eq_refl).
  apply groupby_sum_by_name. intros m.
  rewrite !kept_rows_of_name. unfold earliest3.
  rewrite (rows_of_name_later S1 S2 df r d m Hd Hr Hlt).
  destruct (str_eqb m (Name r)) eqn:E; [|now rewrite app_nil_r].
  apply str_eqb_eq in E. subst m.
  rewrite firstn_app.
  rewrite (Permutation_length (rows_of_name_perm S2 df (Name r))).
  replace (3 - length (by_name (Name r) (with_division df))) with 0 by lia.
  simpl firstn at 2. now rewrite app_nil_r.
Qed.

Lemma row_fourth_distinct : distinct_appearances (row_fourth :: df_three).
Proof.
  split.
  - unfold df_three, row_fourth. simpl.
    repeat (constructor; [simpl; intuition discriminate|]). constructor.
  - unfold df_three, row_fourth. simpl.
    intros r [<-|[<-|[<-|[<-|[]]]]]; discriminate.
Qed.

Lemma df_three_earlier c :
  In c (by_name (Name row_fourth) (with_division df_three)) ->
  (date_key c < 4)%Z.
Proof.
  intros H. vm_compute in H.
  destruct H as [<-|[<-|[<-|[]]]]; vm_compute; reflexivity.
Qed.

Lemma later_appearance_ignored_witness :
  distinct_appearances (row_fourth :: df_three)
  /\ Date row_fourth = Some 4%Z
  /\ (forall c, In c (by_name (Name row_fourth) (with_division df_three)) ->
        (date_key c < 4)%Z)
  /\ 3 <= length (by_name (Name row_fourth) (with_division df_three))
  /\ Permutation (process_novice stable_pandas (row_fourth :: df_three))
       (process_novice reversing_pandas df_three).
Proof.
  assert (H3 : 3 <= length (by_name (Name row_fourth)
                              (with_division df_three)))
    by (vm_compute; lia).
  split; [exact row_fourth_distinct|].
  split; [reflexivity|].
  split; [exact df_three_earlier|].
  split; [exact H3|].
  exact (later_appearance_ignored stable_sorter reversing_sorter int64_sum
           df_three row_fourth 4%Z row_fourth_distinct eq_refl
           df_three_earlier H3).
Defined.

(* ================================================================= *)
(** ** Running the limiter again *)

Lemma StronglySorted_app_l {A : Type} (R : A -> A -> Prop) l1 l2 :
  StronglySorted R (l1 ++ l2) -> StronglySorted R l1.
Proof.
  induction l1 as [|a l1 IH]; simpl; intros H; constructor.
  - apply IH. now apply StronglySorted_inv in H.
  - apply StronglySorted_inv in H as [_ H].
    now apply Forall_app in H.
Qed.

Lemma strictly_sorted_keys_NoDup {A : Type} (key : A -> Z) l :
  StronglySorted (fun x y => (key x < key y)%Z) l -> NoDup (map key l).
Proof.
  induction 1 as [|x l Hs IH Hx]; simpl; constructor; [|exact IH].
  intros Hin. apply in_map_iff in Hin as [y [E Hy]].
  rewrite Forall_forall in Hx. specialize (Hx y Hy). lia.
Qed.

Lemma earliest3_strict srt df n :
  distinct_appearances df ->
  StronglySorted (fun x y => (date_key x < date_key y)%Z)
    (earliest3 srt df n).
Proof.
  intros Hd. apply (StronglySorted_app_l _ _ (later_rows srt df n)).
  unfold earliest3, later_rows. rewrite firstn_skipn.
  now apply rows_of_name_strict.
Qed.

(** With a date on every row and no two rows of a name on one date, a
    second run of the limiter on what a first run returned, whatever the
    sorts of the two runs, keeps for every name the same rows in the same
    order. *)
Theorem limiter_rerun_same_rows (S1 S2 : sorter) (df : list record)
    (n : str) :
  distinct_appearances df ->
  by_name n (limiter S2 (limiter S1 (with_division df))) =
  by_name n (limiter S1 (with_division df)).
Proof.
  intros Hd.
  assert (P : Permutation
                (by_name n (sort_values_Date S2
                              (limiter S1 (with_division df))))
                (by_name n (limiter S1 (with_division df))))
    by apply filter_perm, sort_values_Date_perm.
  assert (Hdated : forall c,
            In c (by_name n (sort_values_Date S2
                               (limiter S1 (with_division df)))) ->
            has_date c = true).
  { intros c Hc. apply (Permutation_in _ P) in Hc.
    apply filter_In in Hc as [Hc _]. apply limiter_incl in Hc.
    exact (with_division_dated df (proj2 Hd) c Hc). }
  assert (E : by_name n (sort_values_Date S2
                           (limiter S1 (with_division df))) =
              by_name n (limiter S1 (with_division df))).
  { apply (strictly_sorted_unique
             (fun x y => (date_key x < date_key y)%Z)).
    - intros x. lia.
    - intros x y z. lia.
    - apply sorted_distinct_strict.
      + eapply StronglySorted_impl_in;
          [|apply StronglySorted_filter, sort_values_Date_sorted].
        intros x y Hx Hy. apply date_le_key; now apply Hdated.
      + eapply Permutation_NoDup;
          [symmetry; apply Permutation_map, P|].
        rewrite kept_rows_of_name.
        now apply strictly_sorted_keys_NoDup, earliest3_strict.
    - rewrite kept_rows_of_name. now apply earliest3_strict.
    - intros c. split; apply Permutation_in; [exact P | now symmetry]. }
  rewrite by_name_limiter, E. apply firstn_all2, limiter_capped.
Qed.

Lemma limiter_rerun_same_rows_witness :
  distinct_appearances df_four
  /\ by_name (codepoints "A")
       (limiter reversing_sorter
          (limiter stable_sorter (with_division df_four))) =
     by_name (codepoints "A")
       (limiter stable_sorter (with_division df_four)).
Proof.
  split; [exact df_four_distinct|].
  exact (limiter_rerun_same_rows stable_sorter reversing_sorter df_four
           (codepoints "A") df_four_distinct).
Defined.
